(** * obsidian-local-whisper: the link scanner, resolver, transcript
      locator/reader, inserter and command pipeline, embedded in Rocq.

    The plugin is TypeScript.  Its data are JavaScript strings (sequences of
    UTF-16 code units), numbers used as string offsets, and small records.
    The scanner and the transcript locator are regular expressions run by the
    ECMAScript backtracking matcher, so the development starts with a small
    model of that matcher (continuation style, as in the language
    definition), then embeds each source function on top of it. *)

From Stdlib Require Import String Ascii.
From Stdlib Require Import List NArith Arith Bool Lia.
Import ListNotations.

Set Implicit Arguments.

(* ================================================================== *)
(** ** JavaScript strings *)

Module JS.

(** A string is a list of UTF-16 code units. *)
Definition CodeUnit := N.
Definition JSString := list CodeUnit.

(** String literals of the source, read one code unit per character (all
    literals of the plugin are ASCII). *)
Definition str (s : string) : JSString :=
  List.map N_of_ascii (list_ascii_of_string s).

Definition cu (c : ascii) : CodeUnit := N_of_ascii c.

Fixpoint eqb_str (a b : JSString) : bool :=
  match a, b with
  | [], [] => true
  | x :: a', y :: b' => N.eqb x y && eqb_str a' b'
  | _, _ => false
  end.

(** [s.substring(0, e)] for a non-negative [e]: the end is clamped to the
    length of [s]. *)
Definition substring0 (s : JSString) (e : nat) : JSString := firstn e s.

(** [s.split(sep)] for a separator of one code unit: the segments between
    the occurrences of [sep]; a string without [sep] is one segment. *)
Fixpoint split (sep : CodeUnit) (s : JSString) : list JSString :=
  match s with
  | [] => [[]]
  | c :: s' =>
      if N.eqb c sep then [] :: split sep s'
      else match split sep s' with
           | seg :: segs => (c :: seg) :: segs
           | [] => [[c]]
           end
  end.

(** White space and line terminators, as [String.prototype.trim] sees
    them. *)
Definition isWhiteSpace (c : CodeUnit) : bool :=
  existsb (N.eqb c)
    [9; 10; 11; 12; 13; 32; 160; 5760; 8232; 8233; 8239; 8287; 12288; 65279]%N
  || ((8192 <=? c) && (c <=? 8202))%N.

Fixpoint trimStart (s : JSString) : JSString :=
  match s with
  | c :: s' => if isWhiteSpace c then trimStart s' else s
  | [] => []
  end.

Definition trimEnd (s : JSString) : JSString := rev (trimStart (rev s)).

Definition trim (s : JSString) : JSString := trimEnd (trimStart s).

(* ------------------------------------------------------------------ *)
(** *** Regular expressions (the fragment the plugin's patterns use) *)

(** A character class: its members and whether it is negated.  A literal
    pattern character is the class of that one character. *)
Record CharClass := mkClass { invert : bool; members : list CodeUnit }.

Inductive Regex : Type :=
| Empty                              (* the empty pattern *)
| Class (cls : CharClass)            (* [c], [[^c]] *)
| Seq (a b : Regex)                  (* a b *)
| Alt (a b : Regex)                  (* a|b *)
| Star (cls : CharClass)             (* greedy cls* *)
| Group (n : nat) (r : Regex)        (* capturing group number n *)
| AssertEnd.                         (* $ (no multiline flag) *)

Definition Chr (c : ascii) : Regex := Class (mkClass false [cu c]).
(** [cls+] is [cls cls*]: one mandatory iteration, then greedy. *)
Definition Plus (cls : CharClass) : Regex := Seq (Class cls) (Star cls).
Definition notc (c : ascii) : CharClass := mkClass true [cu c].

Fixpoint Lit (s : JSString) : Regex :=
  match s with
  | [] => Empty
  | [c] => Class (mkClass false [c])
  | c :: s' => Seq (Class (mkClass false [c])) (Lit s')
  end.

(** [parts.join("|")] read as a pattern: the alternation of the literal
    parts, in order. *)
Fixpoint joinAlt (parts : list JSString) : Regex :=
  match parts with
  | [] => Empty
  | [p] => Lit p
  | p :: ps => Alt (Lit p) (joinAlt ps)
  end.

(** Canonicalize of the language definition for a pattern without the
    unicode flag: with [ignoreCase] a code unit is compared through its
    upper case.  Below 128 that is the ASCII upper case.  From 128 on the
    language definition never lets the result fall below 128, and every
    pattern character of the plugin is ASCII, so the table of non-ASCII
    upper cases cannot change any comparison made here; such a code unit is
    kept as it is. *)
Definition Canonicalize (ignoreCase : bool) (ch : CodeUnit) : CodeUnit :=
  if ignoreCase
  then if ((97 <=? ch) && (ch <=? 122))%N then (ch - 32)%N else ch
  else ch.

Definition classMatches (ic : bool) (cls : CharClass) (ch : CodeUnit) : bool :=
  xorb (invert cls)
       (existsb (fun a => N.eqb (Canonicalize ic a) (Canonicalize ic ch))
                (members cls)).

(** The state of a match in progress: the input still to be read, the
    index reached, and the captures made so far (latest first). *)
Record MatchState := mkState
  { rest : JSString; endIndex : nat; captures : list (nat * JSString) }.

Definition Continuation := MatchState -> option MatchState.

(** Greedy iteration of a class: take as many characters as match, and on
    failure of the continuation give them back one at a time. *)
Fixpoint star (ic : bool) (cls : CharClass) (s : JSString) (e : nat)
         (caps : list (nat * JSString)) (k : Continuation) : option MatchState :=
  match s with
  | c :: s' =>
      if classMatches ic cls c
      then match star ic cls s' (S e) caps k with
           | Some y => Some y
           | None => k (mkState s e caps)
           end
      else k (mkState s e caps)
  | [] => k (mkState [] e caps)
  end.

(** The backtracking matcher: [matcher ic r x k] matches [r] at state [x]
    and hands every way of doing so to [k], first choice first, until one
    succeeds. *)
Fixpoint matcher (ic : bool) (r : Regex) (x : MatchState) (k : Continuation)
  : option MatchState :=
  match r with
  | Empty => k x
  | Class cls =>
      match rest x with
      | c :: s' =>
          if classMatches ic cls c
          then k (mkState s' (S (endIndex x)) (captures x))
          else None
      | [] => None
      end
  | Seq a b => matcher ic a x (fun y => matcher ic b y k)
  | Alt a b =>
      match matcher ic a x k with
      | Some y => Some y
      | None => matcher ic b x k
      end
  | Star cls => star ic cls (rest x) (endIndex x) (captures x) k
  | Group n a =>
      matcher ic a x
        (fun y =>
           k (mkState (rest y) (endIndex y)
                ((n, firstn (endIndex y - endIndex x) (rest x)) :: captures y)))
  | AssertEnd =>
      match rest x with
      | [] => k x
      | _ :: _ => None
      end
  end.

(** The value of capture [n] in a finished match: [None] is [undefined]. *)
Fixpoint capture (n : nat) (caps : list (nat * JSString)) : option JSString :=
  match caps with
  | [] => None
  | (m, v) :: caps' => if Nat.eqb m n then Some v else capture n caps'
  end.

(** The search of [RegExp.prototype.exec]: try the pattern at the current
    index, then one further, up to and including the end of the input.
    The answer is the index of the match and its final state. *)
Fixpoint search (ic : bool) (r : Regex) (s : JSString) (i : nat)
  : option (nat * MatchState) :=
  match matcher ic r (mkState s i []) (fun y => Some y) with
  | Some y => Some (i, y)
  | None =>
      match s with
      | [] => None
      | _ :: s' => search ic r s' (S i)
      end
  end.

(** [re.exec(text)] for a global pattern whose [lastIndex] is [lastIndex]:
    [None] is [null] (and [lastIndex] is reset to 0); after a match the
    new [lastIndex] is the [endIndex] of the returned state. *)
Definition exec (ic : bool) (r : Regex) (text : JSString) (lastIndex : nat)
  : option (nat * MatchState) :=
  if Nat.ltb (length text) lastIndex then None
  else search ic r (skipn lastIndex text) lastIndex.

(** [a || b] on capture values: [undefined] and the empty string are
    falsy. *)
Definition or_else (a b : option JSString) : option JSString :=
  match a with
  | Some (_ :: _) => a
  | _ => b
  end.

End JS.

Import JS.

(* ================================================================== *)
(** ** src/link_finder.ts *)

Module LinkFinder.

(** [interface LinkMatch] *)
Record LinkMatch := mkLinkMatch
  { linkText : JSString; startPos : nat; endPos : nat }.

Definition audioExtensions : list JSString :=
  [str "mp3"; str "wav"; str "m4a"; str "flac"; str "ogg"; str "aac"].

Definition extPattern : Regex := joinAlt audioExtensions.

(** The pattern of the source, flags [gi]: a bracketed label (group 1, any
    run of characters other than a closing bracket), then in parentheses
    group 2 (one or more characters other than a closing parenthesis,
    ending in one of the extensions); or, in double brackets, group 3 (one
    or more characters other than a closing bracket, ending in one of the
    extensions).  No dot is required before the extension. *)
Definition markdownAlt : Regex :=
  Seq (Chr "[")
    (Seq (Group 1 (Star (notc "]")))
      (Seq (Chr "]")
        (Seq (Chr "(")
          (Seq (Group 2 (Seq (Plus (notc ")")) extPattern))
            (Chr ")"))))).

Definition wikiAlt : Regex :=
  Seq (Chr "[")
    (Seq (Chr "[")
      (Seq (Group 3 (Seq (Plus (notc "]")) extPattern))
        (Seq (Chr "]") (Chr "]")))).

Definition linkRegex : Regex := Alt markdownAlt wikiAlt.

(** The [while ((match = re.exec(noteContent)) !== null)] loop.  Each turn
    runs [exec] from the pattern's [lastIndex]; [fuel] bounds the number of
    turns and [None] means the bound was reached. *)
Fixpoint scanLoop (re : Regex) (fuel : nat) (noteContent : JSString)
         (lastIndex : nat) (results : list LinkMatch)
  : option (list LinkMatch) :=
  match fuel with
  | O => None
  | S fuel' =>
      match exec true re noteContent lastIndex with
      | None => Some results
      | Some (index, y) =>
          match or_else (capture 2 (captures y)) (capture 3 (captures y)) with
          | Some (c :: t) =>
              scanLoop re fuel' noteContent (endIndex y)
                (results ++ [mkLinkMatch (c :: t) index (endIndex y)])
          | _ => scanLoop re fuel' noteContent (endIndex y) results
          end
      end
  end.

(** [findAudioLinkMatches]: one turn per match plus the final failing
    [exec], so [S (length noteContent)] turns are enough (proved below). *)
Definition findAudioLinkMatches (noteContent : JSString)
  : option (list LinkMatch) :=
  scanLoop linkRegex (S (length noteContent)) noteContent 0 [].

End LinkFinder.

Import LinkFinder.

(* ================================================================== *)
(** ** src/main.ts (the single-file version of the plugin) *)

Module Main.

(** [interface AudioLink] *)
Record AudioLink := mkAudioLink
  { filePath : JSString; startPos : nat; endPos : nat }.

Definition audioExtensions : list JSString :=
  [str "mp3"; str "wav"; str "m4a"; str "flac"; str "ogg"; str "aac"].

Definition extPattern : Regex := joinAlt audioExtensions.

(** The pattern of [findAudioLinks], flags [gi].  It is the pattern of
    src/link_finder.ts except for the class of group 3, which here excludes
    the opening bracket instead of the closing one. *)
Definition markdownAlt : Regex :=
  Seq (Chr "[")
    (Seq (Group 1 (Star (notc "]")))
      (Seq (Chr "]")
        (Seq (Chr "(")
          (Seq (Group 2 (Seq (Plus (notc ")")) extPattern))
            (Chr ")"))))).

Definition wikiAlt : Regex :=
  Seq (Chr "[")
    (Seq (Chr "[")
      (Seq (Group 3 (Seq (Plus (notc "[")) extPattern))
        (Seq (Chr "]") (Chr "]")))).

Definition linkRegex : Regex := Alt markdownAlt wikiAlt.

Fixpoint scanLoop (re : Regex) (fuel : nat) (noteContent : JSString)
         (lastIndex : nat) (results : list AudioLink)
  : option (list AudioLink) :=
  match fuel with
  | O => None
  | S fuel' =>
      match exec true re noteContent lastIndex with
      | None => Some results
      | Some (index, y) =>
          match or_else (capture 2 (captures y)) (capture 3 (captures y)) with
          | Some (c :: t) =>
              scanLoop re fuel' noteContent (endIndex y)
                (results ++ [mkAudioLink (c :: t) index (endIndex y)])
          | _ => scanLoop re fuel' noteContent (endIndex y) results
          end
      end
  end.

Definition findAudioLinks (noteContent : JSString) : option (list AudioLink) :=
  scanLoop linkRegex (S (length noteContent)) noteContent 0 [].

End Main.

(* ================================================================== *)
(** ** The host (Obsidian, Node): what the plugin is handed *)

Module Host.

(** [TFile]: the plugin reads only its [path]. *)
Record TFile := mkTFile { path : JSString }.

(** The file system as [fs.readFileSync(p, "utf-8")] sees it: [None] when
    the call throws (no such file, not readable). *)
Definition FileSystem := JSString -> option JSString.

(** A call that returns a value or throws. *)
Inductive Completion (A : Type) : Type :=
| Returned (a : A)
| Thrown.
Arguments Returned {A} a.
Arguments Thrown {A}.

(** The user in front of the link chooser: clicks the button number [n]
    (in document order), or leaves the dialog without clicking any. *)
Inductive UserAction := ClickButton (n : nat) | Leave.

Record App := mkApp
  { (** [app.metadataCache.getFirstLinkpathDest(linktext, sourcePath)];
        [None] is [null]. *)
    getFirstLinkpathDest : JSString -> JSString -> option TFile;
    (** [app.vault.adapter]: the base path when the adapter is a
        [FileSystemAdapter], [None] for any other adapter. *)
    adapterBasePath : option JSString;
    (** [path.join] of Node. *)
    pathJoin : JSString -> JSString -> JSString;
    (** The child process behind [execFile(file, args)]: [None] when the
        promise rejects (spawn failure, non-zero exit), else the file
        system the process leaves. *)
    execFile : JSString -> list JSString -> FileSystem -> option FileSystem;
    fileSystem : FileSystem;
    user : UserAction }.

(** *** The editor.  Its state is the text of the document; lines are
    separated by line feeds. *)
Record Editor := mkEditor { getValue : JSString }.

Record EditorPosition := mkPos { line : nat; ch : nat }.

Definition LF : CodeUnit := 10%N.

(** The offset at which line [n] starts, if the document has that line. *)
Fixpoint lineStart (doc : JSString) (n : nat) : option nat :=
  match n with
  | O => Some 0
  | S n' =>
      match doc with
      | [] => None
      | c :: doc' =>
          if N.eqb c LF then option_map S (lineStart doc' n')
          else option_map S (lineStart doc' n)
      end
  end.

(** [editor.posToOffset]: the column is counted from the start of the
    line; a position past the last line is the end of the document (the
    scenario of the specification, a reference on the only line of the
    document, has the callout added after that line). *)
Definition posToOffset (doc : JSString) (p : EditorPosition) : nat :=
  match lineStart doc (line p) with
  | Some o => o + ch p
  | None => length doc
  end.

(** [editor.replaceRange(replacement, from)] with no [to]: the replacement
    is inserted at [from] and nothing is removed. *)
Definition replaceRange (ed : Editor) (replacement : JSString)
           (from : EditorPosition) : Editor :=
  let o := posToOffset (getValue ed) from in
  mkEditor (firstn o (getValue ed) ++ replacement ++ skipn o (getValue ed)).

(** *** [path.basename] of Node (POSIX): the last segment of the path,
    trailing separators ignored. *)
Definition isSep (c : CodeUnit) : bool := N.eqb c (cu "/").

Fixpoint dropSeps (s : JSString) : JSString :=
  match s with
  | c :: s' => if isSep c then dropSeps s' else s
  | [] => []
  end.

Fixpoint takeSegment (s : JSString) : JSString :=
  match s with
  | c :: s' => if isSep c then [] else c :: takeSegment s'
  | [] => []
  end.

Definition basename (p : JSString) : JSString :=
  rev (takeSegment (dropSeps (rev p))).

(** [s.replace(re, replacement)] for a pattern without the global flag and
    a replacement without [$]: the first match, searched from index 0, is
    replaced. *)
Definition replace (ic : bool) (re : Regex) (s replacement : JSString)
  : JSString :=
  match search ic re s 0 with
  | None => s
  | Some (i, y) => firstn i s ++ replacement ++ rest y
  end.

End Host.

Import Host.

(* ================================================================== *)
(** ** src/link_finder.ts, second half: the resolver *)

Module Resolver.

(** [interface AudioLinkFile] *)
Record AudioLinkFile := mkAudioLinkFile
  { tfile : TFile; startPos : nat; endPos : nat }.

(** [resolveMatchesToFiles]: the [for ... of] loop over the matches,
    pushing to [results]. *)
Fixpoint resolveLoop (app : App) (linkMatches : list LinkMatch)
         (currentFilePath : JSString) (results : list AudioLinkFile)
  : list AudioLinkFile :=
  match linkMatches with
  | [] => results
  | m :: ms =>
      match getFirstLinkpathDest app (linkText m) currentFilePath with
      | Some tf =>
          resolveLoop app ms currentFilePath
            (results ++ [mkAudioLinkFile tf (LinkFinder.startPos m)
                                         (LinkFinder.endPos m)])
      | None => resolveLoop app ms currentFilePath results
      end
  end.

Definition resolveMatchesToFiles (app : App) (linkMatches : list LinkMatch)
           (currentFilePath : JSString) : list AudioLinkFile :=
  resolveLoop app linkMatches currentFilePath [].

End Resolver.

Import Resolver.

(* ================================================================== *)
(** ** src/transcription.ts *)

Module Transcription.

(** [runWhisperCLI]: the arguments are fixed; the call throws exactly when
    the child process fails. *)
Definition whisperArgs (audioPath model : JSString) : list JSString :=
  [audioPath; str "--model"; model; str "--output_format"; str "txt";
   str "--output_dir"; str "/tmp"].

Definition runWhisperCLI (app : App) (whisperBinPath audioPath model : JSString)
  : Completion FileSystem :=
  let whisperPath :=
    match whisperBinPath with [] => str "whisper" | _ => whisperBinPath end in
  match execFile app whisperPath (whisperArgs audioPath model) (fileSystem app) with
  | Some fs' => Returned fs'
  | None => Thrown
  end.

(** A dot, then group 1 (one of the extensions), then the end of the
    input; flag [i]. *)
Definition extRegex : Regex :=
  Seq (Chr ".")
    (Seq (Group 1 (joinAlt [str "mp3"; str "wav"; str "m4a"; str "flac";
                            str "ogg"; str "aac"]))
         AssertEnd).

Definition getTranscriptPathInTmp (audioPath : JSString) : JSString :=
  let baseName := basename audioPath in
  let coreName := replace true extRegex baseName [] in
  str "/tmp/" ++ coreName ++ str ".txt".

Definition readTranscriptFile (fs : FileSystem) (transcriptPath : JSString)
  : Completion JSString :=
  match fs transcriptPath with
  | Some data => Returned (trim data)
  | None => Thrown
  end.

End Transcription.

Import Transcription.

(* ================================================================== *)
(** ** src/insert_transcript.ts *)

Module InsertTranscript.

(** The line of the offset [endPos]: the segments of the text before it,
    less one. *)
Definition lineIndexOf (content : JSString) (endPos : nat) : nat :=
  let preText := substring0 content endPos in
  length (split LF preText) - 1.

Definition insertionText (transcript : JSString) : JSString :=
  [LF] ++ str ">[!note] Transcription" ++ [LF] ++ transcript ++ [LF].

Definition insertTranscriptBelowRange (editor : Editor) (startPos endPos : nat)
           (transcript : JSString) : Editor :=
  let content := getValue editor in
  let lineIndex := lineIndexOf content endPos in
  let insertionPos := mkPos (lineIndex + 1) 0 in
  replaceRange editor (insertionText transcript) insertionPos.

End InsertTranscript.

Import InsertTranscript.

(* ================================================================== *)
(** ** The link chooser (chooseLinkModal.ts) *)

Module ChooseLinkModal.

(** What [onOpen] puts in the dialog.  A button carries the value its click
    handler passes to [resolveFn]: an item, or [None] for [null]. *)
Inductive Element :=
| H2 (text : JSString)
| Button (text : JSString) (resolves : option AudioLinkFile)
| Br.

Definition onOpen (items : list AudioLinkFile) : list Element :=
  H2 (str "Choose an audio link to transcribe")
  :: flat_map (fun item => [Button (path (tfile item)) (Some item); Br]) items
  ++ [Button (str "Cancel") None].

Fixpoint buttons (els : list Element) : list (JSString * option AudioLinkFile) :=
  match els with
  | [] => []
  | Button t v :: els' => (t, v) :: buttons els'
  | _ :: els' => buttons els'
  end.

(** [chooseAudioLinkModal]: the promise resolves with the value of the
    button clicked; it never settles ([None]) if no button is clicked. *)
Definition chooseAudioLinkModal (items : list AudioLinkFile) (u : UserAction)
  : option (option AudioLinkFile) :=
  match u with
  | ClickButton n => option_map snd (nth_error (buttons (onOpen items)) n)
  | Leave => None
  end.

End ChooseLinkModal.

Import ChooseLinkModal.

(* ================================================================== *)
(** ** The plugin command (the modular main.ts) *)

Module Plugin.

(** What the user can observe of a run. *)
Inductive Event :=
| Notice (message : JSString)
| ModalOpened (content : list Element).

Inductive Status := Finished | Suspended.

Record Run := mkRun
  { trace : list Event; editorAfter : Editor; status : Status }.

(** Steps 4 to 7, once a link is selected. *)
Definition transcribeSelected (app : App) (editor : Editor)
           (selected : AudioLinkFile) (sofar : list Event) : Run :=
  let tr1 := sofar ++
    [Notice (str "Transcribing: " ++ path (tfile selected) ++ str " ...")] in
  match adapterBasePath app with
  | None =>
      mkRun (tr1 ++ [Notice (str "Your vault is not on a local file system.")])
            editor Finished
  | Some vaultRoot =>
      let absoluteAudioPath := pathJoin app vaultRoot (path (tfile selected)) in
      match runWhisperCLI app (str "/opt/homebrew/bin/whisper")
                          absoluteAudioPath (str "medium") with
      | Thrown =>
          mkRun (tr1 ++
                 [Notice (str "Error running Whisper. See console for details.")])
                editor Finished
      | Returned fs' =>
          let transcriptPath := getTranscriptPathInTmp absoluteAudioPath in
          match readTranscriptFile fs' transcriptPath with
          | Thrown =>
              mkRun (tr1 ++ [Notice (str "Could not read the transcript file.")])
                    editor Finished
          | Returned transcript =>
              mkRun (tr1 ++ [Notice (str "Transcription inserted!")])
                    (insertTranscriptBelowRange editor
                       (Resolver.startPos selected) (Resolver.endPos selected)
                       transcript)
                    Finished
          end
      end
  end.

(** [transcribeAudioInCurrentNote]: steps 1 to 3, then the above. *)
Definition transcribeAudioInCurrentNote (app : App) (editor : Editor)
           (currentFilePath : JSString) : Run :=
  let noteContent := getValue editor in
  match findAudioLinkMatches noteContent with
  | None => mkRun [] editor Suspended
  | Some linkMatches =>
      let audioFiles := resolveMatchesToFiles app linkMatches currentFilePath in
      match audioFiles with
      | [] =>
          mkRun [Notice (str "No valid audio links found in this note.")]
                editor Finished
      | [only] => transcribeSelected app editor only []
      | _ :: _ :: _ =>
          let opened := [ModalOpened (onOpen audioFiles)] in
          match chooseAudioLinkModal audioFiles (user app) with
          | None => mkRun opened editor Suspended
          | Some None => mkRun opened editor Finished
          | Some (Some chosen) => transcribeSelected app editor chosen opened
          end
      end
  end.

End Plugin.

Import Plugin.

(* ================================================================== *)
(** ** src/main.ts, the rest: the command of the single-file version *)

Module MainPlugin.

(** [getTranscriptPath]: its own copy of the pattern of the locator. *)
Definition extRegex : Regex :=
  Seq (Chr ".")
    (Seq (Group 1 (joinAlt [str "mp3"; str "wav"; str "m4a"; str "flac";
                            str "ogg"; str "aac"]))
         AssertEnd).

Definition getTranscriptPath (absoluteFilePath : JSString) : JSString :=
  let fileName := basename absoluteFilePath in
  str "/tmp/" ++ replace true extRegex fileName [] ++ str ".txt".

(** [insertTranscriptBelowLink] *)
Definition insertTranscriptBelowLink (editor : Editor) (link : Main.AudioLink)
           (transcript : JSString) : Editor :=
  let noteContent := getValue editor in
  let preText := substring0 noteContent (Main.endPos link) in
  let lineIndex := length (split LF preText) - 1 in
  let insertionPos := mkPos (lineIndex + 1) 0 in
  let insertionText :=
    [LF] ++ str ">[!note] Transcription" ++ [LF] ++ transcript ++ [LF] in
  replaceRange editor insertionText insertionPos.

(** [runWhisperCLI]: the binary is fixed; a failure of the child process
    is logged and thrown again. *)
Definition runWhisperCLI (app : App) (absoluteFilePath model : JSString)
  : Completion FileSystem :=
  let file := str "/opt/homebrew/bin/whisper" in
  let args := [absoluteFilePath; str "--model"; model; str "--output_format";
               str "txt"; str "--output_dir"; str "/tmp"] in
  match execFile app file args (fileSystem app) with
  | Some fs' => Returned fs'
  | None => Thrown
  end.

(** [ChooseLinkModal] on links. *)
Inductive Element :=
| H2 (text : JSString)
| Button (text : JSString) (resolves : option Main.AudioLink)
| Br.

Definition onOpen (links : list Main.AudioLink) : list Element :=
  H2 (str "Choose an audio link to transcribe")
  :: flat_map (fun link => [Button (Main.filePath link) (Some link); Br]) links
  ++ [Button (str "Cancel") None].

Fixpoint buttons (els : list Element) : list (JSString * option Main.AudioLink) :=
  match els with
  | [] => []
  | Button t v :: els' => (t, v) :: buttons els'
  | _ :: els' => buttons els'
  end.

Definition chooseAudioLinkModal (links : list Main.AudioLink) (u : UserAction)
  : option (option Main.AudioLink) :=
  match u with
  | ClickButton n => option_map snd (nth_error (buttons (onOpen links)) n)
  | Leave => None
  end.

Inductive Event :=
| Notice (message : JSString)
| ModalOpened (content : list Element).

Record Run := mkRun
  { trace : list Event; editorAfter : Editor; status : Plugin.Status }.

(** From the notice "Transcribing" to the end. *)
Definition transcribeSelected (app : App) (editor : Editor)
           (selectedLink : Main.AudioLink) (sofar : list Event) : Run :=
  let tr1 := sofar ++
    [Notice (str "Transcribing: " ++ Main.filePath selectedLink ++ str " ...")] in
  match adapterBasePath app with
  | None =>
      mkRun (tr1 ++
             [Notice (str "Your vault does not appear to use a local file system.")])
            editor Finished
  | Some vaultRoot =>
      let absoluteAudioPath :=
        pathJoin app vaultRoot (Main.filePath selectedLink) in
      match runWhisperCLI app absoluteAudioPath (str "medium") with
      | Thrown =>
          mkRun (tr1 ++
                 [Notice (str "Error running Whisper. See console for details.")])
                editor Finished
      | Returned fs' =>
          let transcriptPath := getTranscriptPath absoluteAudioPath in
          match fs' transcriptPath with
          | None =>
              mkRun (tr1 ++ [Notice (str "Could not read the transcript file.")])
                    editor Finished
          | Some data =>
              mkRun (tr1 ++ [Notice (str "Transcription inserted.")])
                    (insertTranscriptBelowLink editor selectedLink (trim data))
                    Finished
          end
      end
  end.

(** [transcribeAudioInCurrentNote] of src/main.ts: the links are used as
    they are written, without resolution. *)
Definition transcribeAudioInCurrentNote (app : App) (editor : Editor) : Run :=
  let noteContent := getValue editor in
  match Main.findAudioLinks noteContent with
  | None => mkRun [] editor Suspended
  | Some audioLinks =>
      match audioLinks with
      | [] =>
          mkRun [Notice (str "No audio links found in this note.")]
                editor Finished
      | [only] => transcribeSelected app editor only []
      | _ :: _ :: _ =>
          let opened := [ModalOpened (onOpen audioLinks)] in
          match chooseAudioLinkModal audioLinks (user app) with
          | None => mkRun opened editor Suspended
          | Some None => mkRun opened editor Finished
          | Some (Some chosen) => transcribeSelected app editor chosen opened
          end
      end
  end.

End MainPlugin.

(* ================================================================== *)
(** ** Vocabulary of the properties *)

(** *** Matching *)

(** The least number of characters a pattern consumes. *)
Fixpoint minLen (r : Regex) : nat :=
  match r with
  | Empty => 0
  | Class _ => 1
  | Seq a b => minLen a + minLen b
  | Alt a b => Nat.min (minLen a) (minLen b)
  | Star _ => 0
  | Group _ a => minLen a
  | AssertEnd => 0
  end.

(** [y] continues [x]: it has read [endIndex y - endIndex x] characters of
    the input of [x], at least [n] of them. *)
Definition advances (n : nat) (x y : MatchState) : Prop :=
  endIndex x + n <= endIndex y /\
  rest x = firstn (endIndex y - endIndex x) (rest x) ++ rest y /\
  length (firstn (endIndex y - endIndex x) (rest x)) = endIndex y - endIndex x.

(** ASCII lower case. *)
Definition toLowerAscii (c : CodeUnit) : CodeUnit :=
  if ((65 <=? c) && (c <=? 90))%N then (c + 32)%N else c.

(** A pattern character without case: neither an upper-case nor a
    lower-case ASCII letter. *)
Definition caseless (a : CodeUnit) : Prop :=
  (a < 65 \/ (90 < a /\ a < 97) \/ 122 < a)%N.

(** Every character of [a] is in the class. *)
Definition allMatch (ic : bool) (cls : CharClass) (a : JSString) : Prop :=
  Forall (fun c => classMatches ic cls c = true) a.

(** *** The scanner *)

(** Matches laid out from left to right, none before [lo], each one
    non-empty and ending where the next may start. *)
Fixpoint chained (lo : nat) (ms : list LinkMatch) : Prop :=
  match ms with
  | [] => True
  | m :: ms' =>
      lo <= LinkFinder.startPos m /\
      LinkFinder.startPos m < LinkFinder.endPos m /\
      chained (LinkFinder.endPos m) ms'
  end.

(** The two reference syntaxes. *)
Definition mdLink (label path : JSString) : JSString :=
  str "[" ++ label ++ str "](" ++ path ++ str ")".

Definition wikiLink (path : JSString) : JSString :=
  str "[[" ++ path ++ str "]]".

(** The character [ch] does not occur in [s]. *)
Definition lacks (ch : ascii) (s : JSString) : Prop := ~ In (cu ch) s.

(** What the two scanners return, field by field. *)
Definition asTriple (m : LinkMatch) : JSString * nat * nat :=
  (linkText m, LinkFinder.startPos m, LinkFinder.endPos m).

Definition asTriple' (l : Main.AudioLink) : JSString * nat * nat :=
  (Main.filePath l, Main.startPos l, Main.endPos l).

(** The text opens a wiki-style reference: two opening brackets. *)
Definition startsWiki (s : JSString) : bool :=
  match s with
  | a :: b :: _ => N.eqb a (cu "[") && N.eqb b (cu "[")
  | _ => false
  end.

(** No place of the text opens a wiki-style reference. *)
Fixpoint noWiki (s : JSString) : bool :=
  match s with
  | [] => true
  | _ :: s' => negb (startsWiki s) && noWiki s'
  end.

(** The words a pattern can read, captures and positions left aside. *)
Inductive Reads (ic : bool) : Regex -> JSString -> Prop :=
| ReadsEmpty : Reads ic Empty []
| ReadsClass cls c : classMatches ic cls c = true -> Reads ic (Class cls) [c]
| ReadsSeq a b u v : Reads ic a u -> Reads ic b v -> Reads ic (Seq a b) (u ++ v)
| ReadsAltL a b u : Reads ic a u -> Reads ic (Alt a b) u
| ReadsAltR a b u : Reads ic b u -> Reads ic (Alt a b) u
| ReadsStar cls u : allMatch ic cls u -> Reads ic (Star cls) u
| ReadsGroup n a u : Reads ic a u -> Reads ic (Group n a) u
| ReadsEnd : Reads ic AssertEnd [].

(** The capturing groups of a pattern, with their bodies. *)
Fixpoint groups (r : Regex) : list (nat * Regex) :=
  match r with
  | Seq a b => groups a ++ groups b
  | Alt a b => groups a ++ groups b
  | Group n a => (n, a) :: groups a
  | _ => []
  end.

(** The capture [c] is a word read by the body of its group in [r]. *)
Definition capturedBy (ic : bool) (r : Regex) (c : nat * JSString) : Prop :=
  exists a, In (fst c, a) (groups r) /\ Reads ic a (snd c).

(** [u] is at least one character followed by the letters, in any case,
    of a recognized extension. *)
Definition endsInExtensionLetters (u : JSString) : Prop :=
  exists q e,
    u = q ++ e /\ q <> [] /\
    In (List.map toLowerAscii e) LinkFinder.audioExtensions.

(** *** The inserter *)

Definition countLF (s : JSString) : nat := count_occ N.eq_dec s LF.

(** *** The resolver *)

Definition resolves (app : App) (currentFilePath : JSString) (m : LinkMatch)
  : bool :=
  match getFirstLinkpathDest app (linkText m) currentFilePath with
  | Some _ => true
  | None => false
  end.

(** An output entry comes from a match: the file is what the match's
    text resolves to, the positions are those of the match. *)
Definition resolvedFrom (app : App) (currentFilePath : JSString)
           (r : AudioLinkFile) (m : LinkMatch) : Prop :=
  getFirstLinkpathDest app (linkText m) currentFilePath = Some (tfile r) /\
  Resolver.startPos r = LinkFinder.startPos m /\
  Resolver.endPos r = LinkFinder.endPos m.

(** *** The selection step *)

(** The button of an item in the dialog: its label and what a click
    resolves to. *)
Definition choiceOf (item : AudioLinkFile) : JSString * option AudioLinkFile :=
  (path (tfile item), Some item).

Definition isModal (ev : Event) : bool :=
  match ev with ModalOpened _ => true | Notice _ => false end.

(** *** The transcript reader *)

Definition startsClean (t : JSString) : Prop :=
  match t with c :: _ => isWhiteSpace c = false | [] => True end.

(** [t] is [data] with its leading and trailing white space removed. *)
Definition trimmedOf (data t : JSString) : Prop :=
  exists l r,
    data = l ++ t ++ r /\
    Forall (fun c => isWhiteSpace c = true) l /\
    Forall (fun c => isWhiteSpace c = true) r /\
    startsClean t /\ startsClean (rev t).

(** A vault with one recording; Whisper runs but leaves no transcript. *)
Definition silentHost : App :=
  mkApp (fun _ _ => Some (mkTFile (str "meeting.m4a")))
        (Some (str "/vault"))
        (fun a b => a ++ str "/" ++ b)
        (fun _ _ fs => Some fs)
        (fun _ => None)
        Leave.

(** The same vault when Whisper leaves the transcript of the recording,
    with white space around it, in the output directory. *)
Definition transcribingHost : App :=
  mkApp (fun _ _ => Some (mkTFile (str "meeting.m4a")))
        (Some (str "/vault"))
        (fun a b => a ++ str "/" ++ b)
        (fun _ _ fs =>
           Some (fun p => if eqb_str p (str "/tmp/meeting.txt")
                          then Some (str "  Hello world " ++ [LF])
                          else fs p))
        (fun _ => None)
        Leave.

(** A vault in which every reference resolves to the file of that name,
    and a user who does [u] in the dialog. *)
Definition choosingHost (u : UserAction) : App :=
  mkApp (fun linktext _ => Some (mkTFile linktext))
        (Some (str "/vault"))
        (fun a b => a ++ str "/" ++ b)
        (fun _ _ fs => Some fs)
        (fun _ => None)
        u.

(** *** The transcript locator *)

(** The transcript path in the words of the specification: the base name
    of the audio path, less a trailing dot and recognized extension in
    any letter case, between the output directory and [.txt]. *)
Definition recognized : list JSString :=
  [str "mp3"; str "wav"; str "m4a"; str "flac"; str "ogg"; str "aac"].

Definition dotted (e : JSString) : JSString := str "." ++ e.

Definition endsWithNoCase (s suffix : JSString) : bool :=
  (length suffix <=? length s)
  && eqb_str (List.map toLowerAscii (skipn (length s - length suffix) s)) suffix.

Definition stripAudioExtension (name : JSString) : JSString :=
  match find (fun e => endsWithNoCase name (dotted e)) recognized with
  | Some e => firstn (length name - length (dotted e)) name
  | None => name
  end.

Definition transcriptPathFor (audioPath : JSString) : JSString :=
  str "/tmp/" ++ stripAudioExtension (basename audioPath) ++ str ".txt".

(** The whole of [t] is a dot and a recognized extension. *)
Definition isDotExt (t : JSString) : bool :=
  existsb (fun e => eqb_str (List.map toLowerAscii t) (dotted e)) recognized.

(** The text before the first place from which the rest is a dot and a
    recognized extension; the whole text if there is no such place. *)
Fixpoint cutAtExt (s : JSString) : JSString :=
  if isDotExt s then []
  else match s with
       | [] => []
       | c :: s' => c :: cutAtExt s'
       end.

(** *** Further vocabulary: parses, spans *)

(** The words a pattern can read together with the captures made while
    reading them (latest first, as in a match state). *)
Inductive Parses (ic : bool)
  : Regex -> JSString -> list (nat * JSString) -> Prop :=
| ParsesEmpty : Parses ic Empty [] []
| ParsesClass cls c :
    classMatches ic cls c = true -> Parses ic (Class cls) [c] []
| ParsesSeq a b u v cu cv :
    Parses ic a u cu -> Parses ic b v cv ->
    Parses ic (Seq a b) (u ++ v) (cv ++ cu)
| ParsesAltL a b u c : Parses ic a u c -> Parses ic (Alt a b) u c
| ParsesAltR a b u c : Parses ic b u c -> Parses ic (Alt a b) u c
| ParsesStar cls u : allMatch ic cls u -> Parses ic (Star cls) u []
| ParsesGroup n a u c :
    Parses ic a u c -> Parses ic (Group n a) u ((n, u) :: c)
| ParsesEnd : Parses ic AssertEnd [] [].

(** [text.substring(from, to)] for [from <= to]. *)
Definition substring (text : JSString) (from to : nat) : JSString :=
  firstn (to - from) (skipn from text).

(** The span of a match is one of the two constructs around its reference
    text, whose delimiters do not occur where the pattern excludes
    them. *)
Definition isReferenceTo (span linkText : JSString) : Prop :=
  (exists label,
      span = mdLink label linkText /\ lacks "]" label /\ lacks ")" linkText)
  \/ (span = wikiLink linkText /\ lacks "]" linkText).

Definition spansReference (text : JSString) (m : LinkMatch) : Prop :=
  LinkFinder.endPos m <= length text /\
  isReferenceTo (substring text (LinkFinder.startPos m) (LinkFinder.endPos m))
                (linkText m).

(** Links of the single-file scanner laid out from left to right. *)
Fixpoint chainedLinks (lo : nat) (ls : list Main.AudioLink) : Prop :=
  match ls with
  | [] => True
  | l :: ls' =>
      lo <= Main.startPos l /\
      Main.startPos l < Main.endPos l /\
      chainedLinks (Main.endPos l) ls'
  end.

(** Resolved references laid out from left to right. *)
Fixpoint chainedFiles (lo : nat) (rs : list AudioLinkFile) : Prop :=
  match rs with
  | [] => True
  | r :: rs' =>
      lo <= Resolver.startPos r /\
      Resolver.startPos r < Resolver.endPos r /\
      chainedFiles (Resolver.endPos r) rs'
  end.

(** The notices that tell how a run ended. *)
Definition outcomeNotices : list JSString :=
  [str "No valid audio links found in this note.";
   str "Your vault is not on a local file system.";
   str "Error running Whisper. See console for details.";
   str "Could not read the transcript file.";
   str "Transcription inserted!"].

(** The resolved reference of a match whose text is the path of its
    file. *)
Definition fileOfMatch (m : LinkMatch) : AudioLinkFile :=
  mkAudioLinkFile (mkTFile (linkText m)) (LinkFinder.startPos m)
                  (LinkFinder.endPos m).

(** A resolved reference of the modular version and a link of the
    single-file version stand for the same place and the same file. *)
Definition sameReference (r : AudioLinkFile) (l : Main.AudioLink) : Prop :=
  path (tfile r) = Main.filePath l /\
  Resolver.startPos r = Main.startPos l /\
  Resolver.endPos r = Main.endPos l.

(** A vault in which every reference is the path of a file, and a user
    who does [u] in the dialog; Whisper leaves a transcript for every
    recording. *)
Definition plainHost (u : UserAction) : App :=
  mkApp (fun linktext _ => Some (mkTFile linktext))
        (Some (str "/vault"))
        (fun a b => a ++ str "/" ++ b)
        (fun _ _ fs => Some (fun _ => Some (str " Hello ")))
        (fun _ => None)
        u.

(** A match, and a match state, moved [d] characters to the right. *)
Definition shiftMatch (d : nat) (m : LinkMatch) : LinkMatch :=
  mkLinkMatch (linkText m) (d + LinkFinder.startPos m) (d + LinkFinder.endPos m).

Definition shiftState (d : nat) (x : MatchState) : MatchState :=
  mkState (rest x) (d + endIndex x) (captures x).

Definition shiftFound (d : nat) (f : nat * MatchState) : nat * MatchState :=
  (d + fst f, shiftState d (snd f)).

(* ================================================================== *)
(** ** Facts about the matcher *)

Section MatcherFacts.

Variable ic : bool.

Lemma advances_refl x : advances 0 x x.
Proof.
  unfold advances. rewrite Nat.sub_diag. simpl. split; [lia | auto].
Qed.

Lemma advances_step c s e caps caps' :
  advances 1 (mkState (c :: s) e caps) (mkState s (S e) caps').
Proof.
  unfold advances. cbn [rest endIndex].
  replace (S e - e) with 1 by lia. cbn [firstn app length].
  split; [lia | auto].
Qed.

Lemma advances_trans n m x y z :
  advances n x y -> advances m y z -> advances (n + m) x z.
Proof.
  unfold advances. intros (H1 & H2 & H3) (H4 & H5 & H6).
  split; [lia|].
  assert (E : endIndex z - endIndex x
              = (endIndex y - endIndex x) + (endIndex z - endIndex y)) by lia.
  set (a := endIndex y - endIndex x) in *.
  set (b := endIndex z - endIndex y) in *.
  rewrite E.
  assert (F : firstn (a + b) (rest x)
              = firstn a (rest x) ++ firstn b (rest y)).
  { rewrite H2 at 1. rewrite firstn_app, H3.
    replace (a + b - a) with b by lia.
    rewrite firstn_all2 by (rewrite H3; lia). reflexivity. }
  rewrite F. split.
  - rewrite <- app_assoc, <- H5. exact H2.
  - rewrite length_app, H3, H6. reflexivity.
Qed.

Lemma advances_weaken n m x y : m <= n -> advances n x y -> advances m x y.
Proof. unfold advances. intros ? (? & ? & ?). split; [lia | auto]. Qed.

Lemma advances_caps n x y caps :
  advances n x y ->
  advances n x (mkState (rest y) (endIndex y) caps).
Proof. unfold advances; simpl; auto. Qed.

Lemma star_inv cls s e caps k y :
  star ic cls s e caps k = Some y ->
  exists x', k x' = Some y /\ advances 0 (mkState s e caps) x'.
Proof.
  revert e. induction s as [|c s IH]; intros e H; simpl in H.
  - eexists; split; [exact H | apply advances_refl].
  - destruct (classMatches ic cls c).
    + destruct (star ic cls s (S e) caps k) eqn:E.
      * inversion H; subst. destruct (IH _ E) as (x' & Hk & Ha).
        exists x'; split; [exact Hk|].
        eapply advances_weaken;
          [|exact (advances_trans (advances_step c s e caps caps) Ha)]. lia.
      * eexists; split; [exact H | apply advances_refl].
    + eexists; split; [exact H | apply advances_refl].
Qed.

(** Whatever the matcher returns went through its continuation, at a
    state that continues the initial one by at least [minLen r]
    characters. *)
Lemma matcher_inv r : forall x k y,
  matcher ic r x k = Some y ->
  exists x', k x' = Some y /\ advances (minLen r) x x'.
Proof.
  induction r as [|cls|a IHa b IHb|a IHa b IHb|cls|n a IHa|];
    intros x k y H; simpl in H |- *.
  - exists x; split; [exact H | apply advances_refl].
  - destruct x as [s e caps]; simpl in H.
    destruct s as [|c s]; [discriminate|].
    destruct (classMatches ic cls c); [|discriminate].
    eexists; split; [exact H | apply advances_step].
  - destruct (IHa _ _ _ H) as (x1 & H1 & A1).
    destruct (IHb _ _ _ H1) as (x2 & H2 & A2).
    exists x2; split; [exact H2 | exact (advances_trans A1 A2)].
  - destruct (matcher ic a x k) eqn:E.
    + inversion H; subst. destruct (IHa _ _ _ E) as (x1 & H1 & A1).
      exists x1; split; [exact H1|]. eapply advances_weaken; [|exact A1]. lia.
    + destruct (IHb _ _ _ H) as (x1 & H1 & A1).
      exists x1; split; [exact H1|]. eapply advances_weaken; [|exact A1]. lia.
  - destruct x as [s e caps]; simpl in H.
    apply star_inv in H. exact H.
  - destruct (IHa _ _ _ H) as (x1 & H1 & A1).
    eexists; split; [exact H1|]. apply advances_caps; exact A1.
  - destruct x as [s e caps]; simpl in H.
    destruct s; [|discriminate].
    eexists; split; [exact H | apply advances_refl].
Qed.

Lemma advances_length n x y :
  advances n x y -> length (rest y) + endIndex y = length (rest x) + endIndex x.
Proof.
  intros (H1 & H2 & H3).
  assert (L : length (rest x)
              = length (firstn (endIndex y - endIndex x) (rest x) ++ rest y))
    by (rewrite <- H2; reflexivity).
  rewrite length_app, H3 in L. lia.
Qed.

(** A match found by the search starts at or after the index it was
    asked from, has at least [minLen r] characters and ends inside the
    input. *)
Lemma search_inv r : forall s i idx y,
  search ic r s i = Some (idx, y) ->
  i <= idx /\ idx + minLen r <= endIndex y /\ endIndex y <= i + length s.
Proof.
  induction s as [|c s IH]; intros i idx y H; simpl in H.
  - destruct (matcher ic r (mkState [] i []) (fun y => Some y)) eqn:E;
      [|discriminate].
    inversion H; subst.
    destruct (matcher_inv _ _ _ E) as (x' & Hx & A). inversion Hx; subst.
    pose proof (advances_length A) as L. destruct A as (A1 & _). simpl in *.
    lia.
  - destruct (matcher ic r (mkState (c :: s) i []) (fun y => Some y)) eqn:E.
    + inversion H; subst.
      destruct (matcher_inv _ _ _ E) as (x' & Hx & A). inversion Hx; subst.
      pose proof (advances_length A) as L. destruct A as (A1 & _). simpl in *.
      lia.
    + apply IH in H. simpl. lia.
Qed.

Lemma exec_inv r text lastIndex idx y :
  exec ic r text lastIndex = Some (idx, y) ->
  lastIndex <= idx /\ idx + minLen r <= endIndex y /\
  endIndex y <= length text.
Proof.
  unfold exec. destruct (Nat.ltb_spec (length text) lastIndex); [discriminate|].
  intros Hs. apply search_inv in Hs. rewrite length_skipn in Hs. lia.
Qed.

End MatcherFacts.

(* ================================================================== *)
(** ** The scanner: termination, order of the matches *)

Section ScannerFacts.

Lemma chained_weaken lo lo' ms : lo <= lo' -> chained lo' ms -> chained lo ms.
Proof. destruct ms; simpl; [auto|]. intros ? (? & ? & ?). repeat split; auto; lia. Qed.

Lemma chained_nonempty lo ms :
  chained lo ms ->
  Forall (fun m => LinkFinder.startPos m < LinkFinder.endPos m) ms.
Proof.
  revert lo. induction ms as [|m ms IH]; intros lo H; constructor.
  - apply H.
  - apply (IH (LinkFinder.endPos m)), H.
Qed.

Lemma chained_consecutive ms : forall lo i a b,
  chained lo ms ->
  nth_error ms i = Some a -> nth_error ms (S i) = Some b ->
  LinkFinder.endPos a <= LinkFinder.startPos b.
Proof.
  induction ms as [|m ms IH]; intros lo i a b H Ha Hb.
  - destruct i; discriminate.
  - destruct H as (_ & _ & H). destruct i as [|i]; simpl in Ha, Hb.
    + inversion Ha; subst. destruct ms as [|m' ms]; [discriminate|].
      inversion Hb; subst. apply H.
    + exact (IH _ _ _ _ H Ha Hb).
Qed.

Variable re : Regex.
Hypothesis re_consumes : 0 < minLen re.

Lemma scanLoop_chained : forall fuel text lastIndex acc res,
  scanLoop re fuel text lastIndex acc = Some res ->
  exists new, res = acc ++ new /\ chained lastIndex new.
Proof.
  induction fuel as [|fuel IH]; intros text lastIndex acc res H;
    simpl in H; [discriminate|].
  destruct (exec true re text lastIndex) as [[idx y]|] eqn:E.
  - destruct (exec_inv _ _ _ _ E) as (L1 & L2 & L3).
    destruct (or_else (capture 2 (captures y)) (capture 3 (captures y)))
      as [[|c t]|].
    + destruct (IH _ _ _ _ H) as (new & -> & C).
      exists new; split; [reflexivity|].
      apply chained_weaken with (lo' := endIndex y); [lia | exact C].
    + destruct (IH _ _ _ _ H) as (new & -> & C).
      exists (mkLinkMatch (c :: t) idx (endIndex y) :: new).
      rewrite <- app_assoc. split; [reflexivity|].
      simpl. repeat split; [lia | lia | exact C].
    + destruct (IH _ _ _ _ H) as (new & -> & C).
      exists new; split; [reflexivity|].
      apply chained_weaken with (lo' := endIndex y); [lia | exact C].
  - inversion H; subst. exists []. rewrite app_nil_r. simpl; auto.
Qed.

(** The loop ends: every turn but the last moves [lastIndex] forward, and
    [lastIndex] never passes the end of the text. *)
Lemma scanLoop_returns : forall fuel text lastIndex acc,
  length text - lastIndex < fuel ->
  exists res, scanLoop re fuel text lastIndex acc = Some res.
Proof.
  induction fuel as [|fuel IH]; intros text lastIndex acc Hf; [lia|].
  simpl.
  destruct (exec true re text lastIndex) as [[idx y]|] eqn:E.
  - destruct (exec_inv _ _ _ _ E) as (L1 & L2 & L3).
    destruct (or_else (capture 2 (captures y)) (capture 3 (captures y)))
      as [[|c t]|]; apply IH; lia.
  - eexists; reflexivity.
Qed.

End ScannerFacts.

Lemma linkRegex_consumes : 0 < minLen LinkFinder.linkRegex.
Proof. vm_compute. lia. Qed.

Lemma findAudioLinkMatches_returns text :
  exists ms, findAudioLinkMatches text = Some ms.
Proof.
  unfold findAudioLinkMatches.
  apply scanLoop_returns; [exact linkRegex_consumes | lia].
Qed.

(** C6.  For every text the scanner returns, and in what it returns every
    match has [startPos < endPos] and each match ends at or before the
    start of the one that follows it. *)
Theorem scanner_spans_ordered : forall text,
  exists ms,
    findAudioLinkMatches text = Some ms /\
    Forall (fun m => LinkFinder.startPos m < LinkFinder.endPos m) ms /\
    (forall i a b,
        nth_error ms i = Some a -> nth_error ms (S i) = Some b ->
        LinkFinder.endPos a <= LinkFinder.startPos b).
Proof.
  intros text. destruct (findAudioLinkMatches_returns text) as (ms & H).
  exists ms. split; [exact H|].
  unfold findAudioLinkMatches in H.
  apply scanLoop_chained in H; [|exact linkRegex_consumes].
  destruct H as (new & -> & C). simpl. split.
  - eapply chained_nonempty; exact C.
  - intros i a b. eapply chained_consecutive; exact C.
Qed.

(* ================================================================== *)
(** ** Matching against partly known text *)

Section Greedy.

Lemma Canonicalize_caseless a c :
  caseless a ->
  N.eqb (Canonicalize true a) (Canonicalize true c) = N.eqb a c.
Proof.
  unfold caseless, Canonicalize. intros Ha.
  destruct (N.leb_spec 97 a), (N.leb_spec a 122),
           (N.leb_spec 97 c), (N.leb_spec c 122); simpl;
    destruct (N.eqb_spec a c); try lia;
    match goal with |- N.eqb ?u ?v = _ => destruct (N.eqb_spec u v) end;
    try reflexivity; lia.
Qed.

Lemma notc_matches (ch : ascii) (c : CodeUnit) :
  caseless (cu ch) -> c <> cu ch -> classMatches true (notc ch) c = true.
Proof.
  intros Hc Hne. unfold classMatches, notc; cbn [invert members existsb].
  rewrite Canonicalize_caseless by exact Hc.
  destruct (N.eqb_spec (cu ch) c); [congruence | reflexivity].
Qed.

Lemma Chr_rejects (ch : ascii) (c : CodeUnit) :
  caseless (cu ch) -> c <> cu ch ->
  classMatches true (mkClass false [cu ch]) c = false.
Proof.
  intros Hc Hne. unfold classMatches; cbn [invert members existsb].
  rewrite Canonicalize_caseless by exact Hc.
  destruct (N.eqb_spec (cu ch) c); [congruence | reflexivity].
Qed.

Variables (ic : bool) (cls : CharClass).

(** Greedy: when the continuation succeeds after the whole run [a] has
    been taken, that is the answer. *)
Lemma star_prefix_some a : forall s e caps k y,
  allMatch ic cls a ->
  star ic cls s (e + length a) caps k = Some y ->
  star ic cls (a ++ s) e caps k = Some y.
Proof.
  induction a as [|c a IH]; intros s e caps k y Ha H; simpl in *.
  - rewrite Nat.add_0_r in H. exact H.
  - apply Forall_cons_iff in Ha. destruct Ha as [Hc Ha]. rewrite Hc.
    rewrite (IH s (S e) caps k y); auto.
    rewrite <- H. f_equal. lia.
Qed.

(** When the continuation fails after [a] and at every place inside
    [a], the iteration fails. *)
Lemma star_prefix_none a : forall s e caps k,
  allMatch ic cls a ->
  star ic cls s (e + length a) caps k = None ->
  (forall a1 a2, a = a1 ++ a2 -> a2 <> [] ->
                 k (mkState (a2 ++ s) (e + length a1) caps) = None) ->
  star ic cls (a ++ s) e caps k = None.
Proof.
  induction a as [|c a IH]; intros s e caps k Ha H Hk; simpl in *.
  - rewrite Nat.add_0_r in H. exact H.
  - apply Forall_cons_iff in Ha. destruct Ha as [Hc Ha]. rewrite Hc.
    rewrite (IH s (S e) caps k); auto.
    + specialize (Hk [] (c :: a) eq_refl). simpl in Hk.
      rewrite Nat.add_0_r in Hk. apply Hk. discriminate.
    + rewrite <- H. f_equal. lia.
    + intros a1 a2 -> Hne.
      specialize (Hk (c :: a1) a2 eq_refl Hne). simpl in Hk.
      rewrite <- Hk. do 2 f_equal. lia.
Qed.

Lemma plus_prefix_some a s e caps k y :
  a <> [] -> allMatch ic cls a ->
  star ic cls s (e + length a) caps k = Some y ->
  matcher ic (Plus cls) (mkState (a ++ s) e caps) k = Some y.
Proof.
  destruct a as [|c a]; [congruence|]. intros _ Ha H.
  apply Forall_cons_iff in Ha. destruct Ha as [Hc Ha]. simpl. rewrite Hc.
  apply star_prefix_some; [assumption|].
  rewrite <- H. f_equal. simpl. lia.
Qed.

End Greedy.

(* ================================================================== *)
(** ** The scanner on a document with one reference *)

(** Evaluation of the matcher on text whose next characters are known. *)
Ltac eval_str :=
  repeat match goal with
  | |- context [str ?s] =>
      let v := eval vm_compute in (str s) in change (str s) with v
  end.

Ltac eval_class :=
  repeat match goal with
  | |- context [classMatches ?i ?cl ?c] =>
      let b := eval vm_compute in (classMatches i cl c) in
      lazymatch b with
      | true => change (classMatches i cl c) with true
      | false => change (classMatches i cl c) with false
      end
  end.

Ltac mstep :=
  repeat (progress (cbn [matcher star rest endIndex captures app]; eval_class)).

Ltac norm_re re :=
  let r := eval vm_compute in re in change re with r.

Ltac use_class H :=
  match type of H with
  | classMatches _ _ ?c = ?b =>
      match goal with
      | |- context [classMatches ?i ?cl c] =>
          replace (classMatches i cl c) with b by (symmetry; exact H)
      end
  end.

Lemma firstn_prefix1 (a r : JSString) n :
  n = length a -> firstn n (a ++ r) = a.
Proof.
  intros ->. rewrite firstn_app, Nat.sub_diag, firstn_all. simpl.
  apply app_nil_r.
Qed.

Lemma firstn_prefix2 (a b r : JSString) n :
  n = length a + length b -> firstn n (a ++ b ++ r) = a ++ b.
Proof.
  intros ->. rewrite app_assoc. apply firstn_prefix1. apply eq_sym, length_app.
Qed.

(** The final state reached equals the expected one: same index, same
    captures. *)
Ltac same_state :=
  f_equal; f_equal;
  [ cbn [length]; rewrite ?length_app; cbn [length]; lia
  | repeat f_equal;
    first
      [ apply firstn_prefix1; lia
      | match goal with
        | |- firstn _ (?c :: ?st ++ ?tl) = ?c :: ?st ++ ?E =>
            let r := eval cbv in (skipn (length E) tl) in
            apply (firstn_prefix2 (c :: st) E r); cbn [length]; lia
        end ] ].

Section SingleReference.

Lemma lacks_allMatch ch s :
  caseless (cu ch) -> lacks ch s -> allMatch true (notc ch) s.
Proof.
  intros Hc Hl. apply Forall_forall. intros c Hin.
  apply notc_matches; [exact Hc|]. intros ->. exact (Hl Hin).
Qed.

Lemma caseless_rbracket : caseless (cu "]").
Proof. unfold caseless. vm_compute. right; left; split; reflexivity. Qed.
Lemma caseless_lbracket : caseless (cu "[").
Proof. unfold caseless. vm_compute. right; left; split; reflexivity. Qed.
Lemma caseless_rparen : caseless (cu ")").
Proof. unfold caseless. vm_compute. left; reflexivity. Qed.

(** The markdown alternative on [[label](stem e)]. *)
Lemma markdownAlt_matches e : In e LinkFinder.audioExtensions ->
  forall label c0 stem post i,
  allMatch true (notc "]") label ->
  classMatches true (notc ")") c0 = true ->
  allMatch true (notc ")") stem ->
  matcher true markdownAlt
    (mkState (str "[" ++ label ++ str "](" ++ (c0 :: stem) ++ e ++ str ")" ++ post)
             i [])
    (fun y => Some y)
  = Some (mkState post
            (i + (length label + length ((c0 :: stem) ++ e) + 4))
            [(2, (c0 :: stem) ++ e); (1, label)]).
Proof.
  intros He label c0 stem post i Hl Hc Hs.
  norm_re markdownAlt.
  unfold LinkFinder.audioExtensions in He. cbn [In] in He.
  repeat (destruct He as [<- | He]); [ .. | contradiction];
    eval_str; mstep;
    (apply star_prefix_some; [exact Hl|]); mstep; use_class Hc; mstep;
    (apply star_prefix_some; [exact Hs|]); mstep;
    same_state.
Qed.

(** The markdown alternative fails on a bracket followed by a run [a]
    without closing bracket and then two closing brackets. *)
Lemma markdownAlt_fails_on_wiki a post i k :
  Forall (fun c => c <> cu "]") a ->
  matcher true markdownAlt (mkState (str "[" ++ a ++ str "]]" ++ post) i []) k
  = None.
Proof.
  intros Ha. norm_re markdownAlt. eval_str.
  cbn [matcher rest endIndex captures app]. eval_class. cbv iota.
  apply star_prefix_none.
  - apply Forall_forall. intros c Hin.
    change (classMatches true (notc "]") c = true). apply notc_matches.
    + exact caseless_rbracket.
    + exact (proj1 (Forall_forall _ _) Ha c Hin).
  - mstep. reflexivity.
  - intros a1 a2 -> Hne. destruct a2 as [|c a2]; [congruence|].
    apply Forall_app in Ha. destruct Ha as [_ Ha].
    apply Forall_cons_iff in Ha. destruct Ha as [Hc _].
    cbn [matcher rest endIndex captures app].
    pose proof (Chr_rejects "]" caseless_rbracket Hc) as Hr.
    use_class Hr. reflexivity.
Qed.

(** The wiki alternative on [[[stem e]]]. *)
Lemma wikiAlt_matches e : In e LinkFinder.audioExtensions ->
  forall c0 stem post i,
  classMatches true (notc "]") c0 = true ->
  allMatch true (notc "]") stem ->
  matcher true wikiAlt
    (mkState (str "[[" ++ (c0 :: stem) ++ e ++ str "]]" ++ post) i [])
    (fun y => Some y)
  = Some (mkState post (i + (length ((c0 :: stem) ++ e) + 4))
            [(3, (c0 :: stem) ++ e)]).
Proof.
  intros He c0 stem post i Hc Hs.
  norm_re wikiAlt.
  unfold LinkFinder.audioExtensions in He. cbn [In] in He.
  repeat (destruct He as [<- | He]); [ .. | contradiction];
    eval_str; mstep; use_class Hc; mstep;
    (apply star_prefix_some; [exact Hs|]); mstep;
    same_state.
Qed.

(** Neither alternative can start on a character other than an opening
    bracket, nor at the end of the text. *)
Lemma linkRegex_needs_bracket c s i k :
  c <> cu "[" ->
  matcher true LinkFinder.linkRegex (mkState (c :: s) i []) k = None.
Proof.
  intros Hc. norm_re LinkFinder.linkRegex.
  cbn [matcher rest endIndex captures].
  pose proof (Chr_rejects "[" caseless_lbracket Hc) as Hr.
  repeat use_class Hr. reflexivity.
Qed.

Lemma linkRegex_not_at_end i k :
  matcher true LinkFinder.linkRegex (mkState [] i []) k = None.
Proof. reflexivity. Qed.

Lemma search_skips_plain pre : forall s i,
  Forall (fun c => c <> cu "[") pre ->
  search true LinkFinder.linkRegex (pre ++ s) i
  = search true LinkFinder.linkRegex s (i + length pre).
Proof.
  induction pre as [|c pre IH]; intros s i Hp.
  - simpl. rewrite Nat.add_0_r. reflexivity.
  - apply Forall_cons_iff in Hp. destruct Hp as [Hc Hp].
    cbn [app search]. rewrite linkRegex_needs_bracket by exact Hc.
    rewrite IH by exact Hp. f_equal. simpl. lia.
Qed.

Lemma search_plain_none s : forall i,
  Forall (fun c => c <> cu "[") s ->
  search true LinkFinder.linkRegex s i = None.
Proof.
  induction s as [|c s IH]; intros i Hs.
  - reflexivity.
  - apply Forall_cons_iff in Hs. destruct Hs as [Hc Hs].
    cbn [search]. rewrite linkRegex_needs_bracket by exact Hc.
    apply IH; exact Hs.
Qed.

(** A text made of plain text, one construct on which the pattern matches
    with reference text [path], and plain text again, is scanned to
    exactly that match. *)
Lemma scan_single pre ref post path caps :
  Forall (fun c => c <> cu "[") pre ->
  Forall (fun c => c <> cu "[") post ->
  ref <> [] -> path <> [] ->
  matcher true LinkFinder.linkRegex
    (mkState (ref ++ post) (length pre) []) (fun y => Some y)
  = Some (mkState post (length pre + length ref) caps) ->
  or_else (capture 2 caps) (capture 3 caps) = Some path ->
  findAudioLinkMatches (pre ++ ref ++ post)
  = Some [mkLinkMatch path (length pre) (length pre + length ref)].
Proof.
  intros Hpre Hpost Href Hpath Hm Hcap.
  unfold findAudioLinkMatches.
  assert (Hlen : length (pre ++ ref ++ post)
                 = S (length pre + length ref + length post - 1)).
  { rewrite !length_app. destruct ref; [congruence|]. simpl. lia. }
  rewrite Hlen. cbn [scanLoop].
  unfold exec at 1. cbn [Nat.ltb Nat.leb skipn].
  rewrite search_skips_plain by exact Hpre. cbn [Nat.add].
  destruct ref as [|r0 ref]; [congruence|].
  cbn [app search] in *. rewrite Hm. cbn [captures endIndex].
  rewrite Hcap. destruct path as [|p0 path]; [congruence|].
  unfold exec.
  destruct (Nat.ltb_spec (length (pre ++ r0 :: ref ++ post))
                         (length pre + length (r0 :: ref))) as [Hlt|Hge].
  { rewrite !length_app in Hlt. simpl in Hlt. rewrite length_app in Hlt. lia. }
  replace (skipn (length pre + length (r0 :: ref)) (pre ++ r0 :: ref ++ post))
    with post.
  - rewrite search_plain_none by exact Hpost. reflexivity.
  - change (r0 :: ref ++ post) with ((r0 :: ref) ++ post).
    rewrite app_assoc.
    rewrite skipn_app, skipn_all2 by (rewrite length_app; lia).
    rewrite length_app.
    replace (length pre + length (r0 :: ref)
             - (length pre + length (r0 :: ref))) with 0 by lia.
    reflexivity.
Qed.


Lemma lacks_app ch a b : lacks ch a -> lacks ch b -> lacks ch (a ++ b).
Proof.
  unfold lacks. intros Ha Hb Hin. apply in_app_or in Hin. tauto.
Qed.

Lemma lacks_Forall ch s : lacks ch s -> Forall (fun c => c <> cu ch) s.
Proof.
  intros Hl. apply Forall_forall. intros c Hin ->. exact (Hl Hin).
Qed.

Lemma extension_plain e ch :
  In e LinkFinder.audioExtensions ->
  In ch ["["; "]"; "("; ")"]%char -> lacks ch e.
Proof.
  unfold LinkFinder.audioExtensions. cbn [In]. intros He Hch.
  repeat (destruct He as [<- | He]); [ .. | contradiction];
    repeat (destruct Hch as [<- | Hch]); try contradiction;
    vm_compute; intros H; repeat (destruct H as [H | H]; [discriminate|]);
    exact H.
Qed.

Lemma md_reference_match e : In e LinkFinder.audioExtensions ->
  forall label p post i,
  p <> [] -> lacks "]" label -> lacks ")" p ->
  matcher true LinkFinder.linkRegex
    (mkState (mdLink label (p ++ e) ++ post) i []) (fun y => Some y)
  = Some (mkState post (i + length (mdLink label (p ++ e)))
            [(2, p ++ e); (1, label)]).
Proof.
  intros He label p post i Hp Hl Hpp.
  destruct p as [|c0 stem]; [congruence|].
  unfold LinkFinder.linkRegex. cbn [matcher].
  replace (mdLink label ((c0 :: stem) ++ e) ++ post)
    with (str "[" ++ label ++ str "](" ++ (c0 :: stem) ++ e ++ str ")" ++ post)
    by (unfold mdLink; rewrite <- !app_assoc; reflexivity).
  rewrite (markdownAlt_matches He).
  - do 2 f_equal. unfold mdLink. eval_str.
    rewrite ?length_app; cbn [length]; rewrite ?length_app; cbn [length]. lia.
  - apply lacks_allMatch; [exact caseless_rbracket | exact Hl].
  - apply notc_matches; [exact caseless_rparen|].
    intros ->. apply Hpp. left; reflexivity.
  - apply lacks_allMatch; [exact caseless_rparen|].
    intros Hin. apply Hpp. right; exact Hin.
Qed.

Lemma wiki_reference_match e : In e LinkFinder.audioExtensions ->
  forall p post i,
  p <> [] -> lacks "]" p ->
  matcher true LinkFinder.linkRegex
    (mkState (wikiLink (p ++ e) ++ post) i []) (fun y => Some y)
  = Some (mkState post (i + length (wikiLink (p ++ e))) [(3, p ++ e)]).
Proof.
  intros He p post i Hp Hpp.
  destruct p as [|c0 stem]; [congruence|].
  unfold LinkFinder.linkRegex. cbn [matcher].
  replace (wikiLink ((c0 :: stem) ++ e) ++ post)
    with (str "[" ++ (str "[" ++ (c0 :: stem) ++ e) ++ str "]]" ++ post)
    by (unfold wikiLink; rewrite <- !app_assoc; reflexivity).
  rewrite markdownAlt_fails_on_wiki.
  - replace (str "[" ++ (str "[" ++ (c0 :: stem) ++ e) ++ str "]]" ++ post)
      with (str "[[" ++ (c0 :: stem) ++ e ++ str "]]" ++ post)
      by (rewrite <- !app_assoc; reflexivity).
    rewrite (wikiAlt_matches He).
    + do 2 f_equal. unfold wikiLink. eval_str.
      rewrite ?length_app; cbn [length]; rewrite ?length_app; cbn [length]. lia.
    + apply notc_matches; [exact caseless_rbracket|].
      intros ->. apply Hpp. left; reflexivity.
    + apply lacks_allMatch; [exact caseless_rbracket|].
      intros Hin. apply Hpp. right; exact Hin.
  - apply lacks_Forall. apply lacks_app.
    + vm_compute. intros [H|[]]; discriminate.
    + apply lacks_app; [exact Hpp|]. apply extension_plain; [exact He|].
      right; left; reflexivity.
Qed.

End SingleReference.

(** C1.  A document made of text without opening bracket, one reference
    to [stem.e] for a recognized extension [e], and text without opening
    bracket: the scanner returns exactly one match; its [linkText] is the
    path between the delimiters, its [startPos] the index of the opening
    bracket and its [endPos] the index after the closing delimiter.  This
    holds for the markdown form (label without closing bracket, path
    without closing parenthesis) and for the wiki form (path without
    closing bracket). *)
Theorem single_reference_scanned :
  forall e, In e LinkFinder.audioExtensions ->
  forall pre label stem post,
    lacks "[" pre -> lacks "[" post ->
    let path := stem ++ str "." ++ e in
    (lacks "]" label -> lacks ")" stem ->
     findAudioLinkMatches (pre ++ mdLink label path ++ post)
     = Some [mkLinkMatch path (length pre)
                         (length pre + length (mdLink label path))]) /\
    (lacks "]" stem ->
     findAudioLinkMatches (pre ++ wikiLink path ++ post)
     = Some [mkLinkMatch path (length pre)
                         (length pre + length (wikiLink path))]).
Proof.
  intros e He pre label stem post Hpre Hpost path.
  assert (Epath : path = (stem ++ str ".") ++ e)
    by (unfold path; rewrite <- app_assoc; reflexivity).
  assert (Hne : stem ++ str "." <> [])
    by (intros H; apply app_eq_nil in H; destruct H; discriminate).
  assert (Hpath : path <> [])
    by (rewrite Epath; intros H; apply app_eq_nil in H; tauto).
  assert (Hdot : forall ch, In ch [")"; "]"]%char -> lacks ch (str ".")).
  { intros ch [<- | [<- | []]]; vm_compute; intros [H|[]]; discriminate. }
  split.
  - intros Hl Hs.
    apply scan_single with (caps := [(2, path); (1, label)]);
      try (apply lacks_Forall; assumption); try assumption.
    + unfold mdLink. discriminate.
    + rewrite Epath. apply md_reference_match; auto.
      apply lacks_app; [exact Hs | apply Hdot; left; reflexivity].
    + destruct path; [congruence | reflexivity].
  - intros Hs.
    apply scan_single with (caps := [(3, path)]);
      try (apply lacks_Forall; assumption); try assumption.
    + unfold wikiLink. discriminate.
    + rewrite Epath. apply wiki_reference_match; auto.
      apply lacks_app; [exact Hs | apply Hdot; right; left; reflexivity].
    + destruct path; [congruence | reflexivity].
Qed.

Lemma single_reference_scanned_witness :
  findAudioLinkMatches (str "See [[meeting.m4a]] for notes.")
  = Some [mkLinkMatch (str "meeting.m4a") 4 19] /\
  findAudioLinkMatches (str "Listen: [Stand-up](audio/standup.flac)!")
  = Some [mkLinkMatch (str "audio/standup.flac") 8 38].
Proof.
  assert (P : forall ch s, (if in_dec N.eq_dec (cu ch) s then false else true) = true
                           -> lacks ch s).
  { intros ch s H Hin. destruct (in_dec N.eq_dec (cu ch) s); [discriminate | tauto]. }
  split.
  - refine (proj2 (@single_reference_scanned (str "m4a") _
                     (str "See ") [] (str "meeting") (str " for notes.") _ _) _).
    + right; right; left; reflexivity.
    + apply P; reflexivity.
    + apply P; reflexivity.
    + apply P; reflexivity.
  - refine (proj1 (@single_reference_scanned (str "flac") _
                     (str "Listen: ") (str "Stand-up") (str "audio/standup")
                     (str "!") _ _) _ _).
    + right; right; right; left; reflexivity.
    + apply P; reflexivity.
    + apply P; reflexivity.
    + apply P; reflexivity.
    + apply P; reflexivity.
Defined.

(* ================================================================== *)
(** ** The extension test of the scanner *)

(** C2.  The pattern asks for the letters of an extension just before the
    closing delimiter, not for a dot before them: a reference whose file
    extension is [xmp3], and a reference to a note whose name has no
    extension and ends in the letters [flac], are both returned as
    matches. *)
Theorem scanner_accepts_unrecognized_extension :
  findAudioLinkMatches (str "[clip](notes/take1.xmp3)")
  = Some [mkLinkMatch (str "notes/take1.xmp3") 0 24] /\
  findAudioLinkMatches (str "[[Notes on flac]]")
  = Some [mkLinkMatch (str "Notes on flac") 0 17].
Proof. split; vm_compute; reflexivity. Qed.

(* ================================================================== *)
(** ** The two scanners *)

(** C10.  On the text [[[a]b.mp3]]] the scanner of src/link_finder.ts
    returns no match, the scanner of src/main.ts returns one: group 3 of
    the latter excludes the opening bracket, not the closing one, so its
    reference text may run over a closing bracket.  On [[[a[b.mp3]]] it
    is the other way round. *)
Theorem scanners_differ :
  (option_map (List.map asTriple) (findAudioLinkMatches (str "[[a]b.mp3]]"))
   = Some [] /\
   option_map (List.map asTriple') (Main.findAudioLinks (str "[[a]b.mp3]]"))
   = Some [(str "a]b.mp3", 0, 11)]) /\
  (option_map (List.map asTriple) (findAudioLinkMatches (str "[[a[b.mp3]]"))
   = Some [(str "a[b.mp3", 0, 11)] /\
   option_map (List.map asTriple') (Main.findAudioLinks (str "[[a[b.mp3]]"))
   = Some []).
Proof. repeat split; vm_compute; reflexivity. Qed.

(** What the two scanners share: on a text in which no two opening
    brackets follow each other only the markdown alternative, the same in
    both patterns, can match, and the two scanners return the same
    matches. *)
Section MarkdownOnly.

Lemma Chr_matches_iff (ch : ascii) (c : CodeUnit) :
  caseless (cu ch) ->
  classMatches true (mkClass false [cu ch]) c = N.eqb (cu ch) c.
Proof.
  intros Hc. unfold classMatches; cbn [invert members existsb xorb].
  rewrite Canonicalize_caseless by exact Hc. apply orb_false_r.
Qed.

Ltac bracket_classes :=
  repeat match goal with
  | |- context [classMatches true ?cl ?c] =>
      replace (classMatches true cl c) with (N.eqb (cu "[") c)
        by (symmetry; exact (Chr_matches_iff "[" c caseless_lbracket))
  end.

Lemma wikiAlt_needs_two_brackets s i caps k :
  startsWiki s = false ->
  matcher true LinkFinder.wikiAlt (mkState s i caps) k = None /\
  matcher true Main.wikiAlt (mkState s i caps) k = None.
Proof.
  intros H. norm_re LinkFinder.wikiAlt. norm_re Main.wikiAlt.
  destruct s as [|a [|b t]]; cbn [matcher rest endIndex captures].
  - split; reflexivity.
  - bracket_classes. destruct (N.eqb (cu "[") a); split; reflexivity.
  - cbn [startsWiki] in H. rewrite (N.eqb_sym a), (N.eqb_sym b) in H.
    bracket_classes.
    destruct (N.eqb (cu "[") a); [|split; reflexivity].
    cbn [andb] in H. rewrite H. split; reflexivity.
Qed.

Lemma linkRegex_same s i :
  startsWiki s = false ->
  matcher true LinkFinder.linkRegex (mkState s i []) (fun y => Some y)
  = matcher true Main.linkRegex (mkState s i []) (fun y => Some y).
Proof.
  intros H. unfold LinkFinder.linkRegex, Main.linkRegex. cbn [matcher].
  destruct (wikiAlt_needs_two_brackets s i [] (fun y => Some y) H) as [-> ->].
  reflexivity.
Qed.

Lemma search_same s : forall i,
  noWiki s = true ->
  search true LinkFinder.linkRegex s i = search true Main.linkRegex s i.
Proof.
  induction s as [|c s IH]; intros i H.
  - reflexivity.
  - cbn [noWiki] in H. apply andb_true_iff in H. destruct H as [H1 H2].
    apply negb_true_iff in H1. cbn [search].
    rewrite (linkRegex_same _ i H1), (IH (S i) H2). reflexivity.
Qed.

Lemma noWiki_skipn n : forall s, noWiki s = true -> noWiki (skipn n s) = true.
Proof.
  induction n as [|n IH]; intros s H; [exact H|].
  destruct s as [|c s]; [reflexivity|].
  cbn [noWiki] in H. apply andb_true_iff in H. apply IH, H.
Qed.

Lemma exec_same text lastIndex :
  noWiki text = true ->
  exec true LinkFinder.linkRegex text lastIndex
  = exec true Main.linkRegex text lastIndex.
Proof.
  intros H. unfold exec. destruct (length text <? lastIndex); [reflexivity|].
  apply search_same, noWiki_skipn, H.
Qed.

Lemma scanLoop_same text : noWiki text = true ->
  forall fuel lastIndex acc acc',
  List.map asTriple acc = List.map asTriple' acc' ->
  option_map (List.map asTriple)
    (LinkFinder.scanLoop LinkFinder.linkRegex fuel text lastIndex acc)
  = option_map (List.map asTriple')
      (Main.scanLoop Main.linkRegex fuel text lastIndex acc').
Proof.
  intros H. induction fuel as [|fuel IH]; intros lastIndex acc acc' Hacc.
  - reflexivity.
  - cbn [LinkFinder.scanLoop Main.scanLoop]. rewrite <- (@exec_same text lastIndex H).
    destruct (exec true LinkFinder.linkRegex text lastIndex) as [[idx y]|].
    + destruct (or_else (capture 2 (captures y)) (capture 3 (captures y)))
        as [[|c t]|]; apply IH; try exact Hacc.
      rewrite !map_app, Hacc. reflexivity.
    + cbn [option_map]. rewrite Hacc. reflexivity.
Qed.

(** X6.  On a text in which no two opening brackets follow each other,
    the scanner of src/main.ts and the scanner of src/link_finder.ts
    return the same matches: same reference texts, same positions. *)
Lemma scanners_agree_on_markdown_only text :
  noWiki text = true ->
  option_map (List.map asTriple) (findAudioLinkMatches text)
  = option_map (List.map asTriple') (Main.findAudioLinks text).
Proof.
  intros H. unfold findAudioLinkMatches, Main.findAudioLinks.
  apply scanLoop_same; [exact H | reflexivity].
Qed.

End MarkdownOnly.

(* ================================================================== *)
(** ** The inserter *)

Section Inserter.

Lemma split_length sep s :
  length (split sep s) = S (count_occ N.eq_dec s sep).
Proof.
  induction s as [|c s IH]; [reflexivity|].
  cbn [split count_occ].
  destruct (N.eqb_spec c sep) as [E|E], (N.eq_dec c sep) as [E'|E'];
    try congruence.
  - simpl. rewrite IH. reflexivity.
  - destruct (split sep s); simpl in *; [discriminate | exact IH].
Qed.

Lemma lineIndexOf_counts content endPos :
  lineIndexOf content endPos = countLF (firstn endPos content).
Proof.
  unfold lineIndexOf, substring0, countLF. rewrite split_length. lia.
Qed.

(** Where the line after the one of offset [n] starts: just after the
    first line feed at or after [n]; there is no such line exactly when
    no line feed follows. *)
Lemma lineStart_next content : forall n,
  match lineStart content (S (countLF (firstn n content))) with
  | Some o =>
      exists tail,
        firstn o content = firstn n content ++ tail ++ [LF] /\
        ~ In LF tail
  | None => ~ In LF (skipn n content)
  end.
Proof.
  induction content as [|c cs IH]; intros n.
  - destruct n; simpl; tauto.
  - destruct n as [|n].
    + specialize (IH 0). cbn [firstn countLF count_occ skipn] in *.
      cbn [lineStart].
      destruct (N.eqb_spec c LF) as [E|E].
      * subst c. replace (lineStart cs 0) with (Some 0) by (destruct cs; reflexivity).
        cbn [option_map]. exists []. split; [reflexivity|].
        simpl; tauto.
      * destruct (lineStart cs 1) as [o|]; cbn [option_map].
        -- destruct IH as (tail & H1 & H2). exists (c :: tail). split.
           ++ cbn [firstn app] in *. rewrite H1. reflexivity.
           ++ intros [H|H]; [congruence | tauto].
        -- intros [H|H]; [congruence | tauto].
    + specialize (IH n). cbn [firstn skipn]. unfold countLF in *.
      cbn [count_occ].
      destruct (N.eq_dec c LF) as [E|E].
      * subst c. cbn [lineStart]. rewrite N.eqb_refl.
        destruct (lineStart cs (S (count_occ N.eq_dec (firstn n cs) LF)))
          as [o|]; cbn [option_map].
        -- destruct IH as (tail & H1 & H2). exists tail. split; [|exact H2].
           cbn [firstn app]. rewrite H1. reflexivity.
        -- exact IH.
      * cbn [lineStart]. destruct (N.eqb_spec c LF) as [E'|_]; [congruence|].
        destruct (lineStart cs (S (count_occ N.eq_dec (firstn n cs) LF)))
          as [o|]; cbn [option_map].
        -- destruct IH as (tail & H1 & H2). exists tail. split; [|exact H2].
           cbn [firstn app]. rewrite H1. reflexivity.
        -- exact IH.
Qed.

End Inserter.

(** C3.  The line index of an offset is the number of line feeds before
    it; the transcript is inserted at column 0 of the line after that
    one; for the text abc/def/ghi and offset 7 that is line 2. *)
Theorem offset_to_insertion_line :
  forall content startPos endPos transcript,
    lineIndexOf content endPos = countLF (firstn endPos content) /\
    insertTranscriptBelowRange (mkEditor content) startPos endPos transcript
    = replaceRange (mkEditor content) (insertionText transcript)
        (mkPos (countLF (firstn endPos content) + 1) 0) /\
    lineIndexOf (str "abc" ++ [LF] ++ str "def" ++ [LF] ++ str "ghi") 7 + 1 = 2.
Proof.
  intros content startPos endPos transcript. split; [|split].
  - apply lineIndexOf_counts.
  - unfold insertTranscriptBelowRange. cbn [getValue].
    rewrite lineIndexOf_counts. reflexivity.
  - reflexivity.
Qed.

(** C9.  The result of the insertion is the document with the block
    spliced in and nothing removed.  The text up to the end offset and
    the rest of its line, [tail], stay in place: together they are the
    lines up to and including the line of the end offset.  The block (a
    line feed, the callout header, a line feed, the transcript, a line
    feed) comes right after that line: after its line feed [nl], at the
    start of the next line, when the line has one, and at the end of the
    document otherwise.  The remainder [post] follows the block. *)
Theorem insertion_is_pure :
  forall content startPos endPos transcript,
  exists tail nl post,
    content = firstn endPos content ++ tail ++ nl ++ post /\
    ~ In LF tail /\
    countLF (firstn endPos content ++ tail) = lineIndexOf content endPos /\
    (nl = [LF] \/ (nl = [] /\ post = [])) /\
    getValue (insertTranscriptBelowRange (mkEditor content) startPos endPos
                                         transcript)
    = firstn endPos content ++ tail ++ nl
      ++ ([LF] ++ str ">[!note] Transcription" ++ [LF] ++ transcript ++ [LF])
      ++ post.
Proof.
  intros content startPos endPos transcript.
  assert (Hcount : forall tail, ~ In LF tail ->
            countLF (firstn endPos content ++ tail)
            = lineIndexOf content endPos).
  { intros tail Ht. rewrite lineIndexOf_counts. unfold countLF.
    rewrite count_occ_app.
    match goal with
    | |- _ + ?y = _ =>
        replace y with 0 by (symmetry; apply count_occ_not_In; exact Ht)
    end.
    rewrite Nat.add_0_r. reflexivity. }
  unfold insertTranscriptBelowRange, replaceRange, posToOffset.
  cbn [getValue line ch]. rewrite lineIndexOf_counts.
  replace (countLF (firstn endPos content) + 1)
    with (S (countLF (firstn endPos content))) by lia.
  pose proof (lineStart_next content endPos) as H.
  destruct (lineStart content (S (countLF (firstn endPos content)))) as [o|].
  - destruct H as (tail & H1 & H2).
    exists tail, [LF], (skipn o content).
    split; [|split; [|split; [|split]]].
    + rewrite <- (firstn_skipn o content) at 1. rewrite H1.
      rewrite <- !app_assoc. reflexivity.
    + exact H2.
    + rewrite Hcount by exact H2. apply lineIndexOf_counts.
    + left; reflexivity.
    + rewrite Nat.add_0_r, H1.
      unfold insertionText. rewrite <- !app_assoc. reflexivity.
  - exists (skipn endPos content), [], [].
    split; [|split; [|split; [|split]]].
    + rewrite !app_nil_r. symmetry. apply firstn_skipn.
    + exact H.
    + rewrite Hcount by exact H. apply lineIndexOf_counts.
    + right; split; reflexivity.
    + rewrite firstn_all, skipn_all. unfold insertionText.
      rewrite <- (firstn_skipn endPos content) at 1.
      rewrite <- !app_assoc. reflexivity.
Qed.

(** The scenario of the specification: one line, one reference. *)
Example insertion_scenario :
  getValue (insertTranscriptBelowRange
              (mkEditor (str "See [[meeting.m4a]] for notes.")) 4 19
              (str "Hello world"))
  = str "See [[meeting.m4a]] for notes." ++ [LF]
    ++ str ">[!note] Transcription" ++ [LF] ++ str "Hello world" ++ [LF].
Proof. vm_compute. reflexivity. Qed.

(* ================================================================== *)
(** ** The resolver *)

Section ResolverFacts.

Variables (app : App) (currentFilePath : JSString).

Lemma resolveLoop_spec ms : forall acc,
  exists out,
    resolveLoop app ms currentFilePath acc = acc ++ out /\
    Forall2 (resolvedFrom app currentFilePath) out
            (filter (resolves app currentFilePath) ms).
Proof.
  induction ms as [|m ms IH]; intros acc; cbn [resolveLoop filter].
  - exists []. rewrite app_nil_r. split; [reflexivity | constructor].
  - unfold resolves at 1.
    destruct (getFirstLinkpathDest app (linkText m) currentFilePath)
      as [tf|] eqn:E.
    + destruct (IH (acc ++ [mkAudioLinkFile tf (LinkFinder.startPos m)
                                            (LinkFinder.endPos m)]))
        as (out & H1 & H2).
      eexists (_ :: out). rewrite H1, <- app_assoc. split; [reflexivity|].
      constructor; [|exact H2]. unfold resolvedFrom; cbn. auto.
    + exact (IH acc).
Qed.

End ResolverFacts.

(** C5.  The output of the resolver lines up, entry by entry and in
    order, with the input matches whose text resolves to a file: each
    entry carries the file its match resolves to and the positions of
    that match.  Matches that do not resolve leave no entry, so the
    output is no longer than the input. *)
Theorem resolver_keeps_resolving_matches :
  forall (app : App) (linkMatches : list LinkMatch) (currentFilePath : JSString),
    Forall2 (resolvedFrom app currentFilePath)
            (resolveMatchesToFiles app linkMatches currentFilePath)
            (filter (resolves app currentFilePath) linkMatches) /\
    length (resolveMatchesToFiles app linkMatches currentFilePath)
    <= length linkMatches.
Proof.
  intros app ms p. unfold resolveMatchesToFiles.
  destruct (resolveLoop_spec app p ms []) as (out & H1 & H2).
  rewrite H1, app_nil_l. split; [exact H2|].
  rewrite (Forall2_length H2). apply filter_length_le.
Qed.

(* ================================================================== *)
(** ** The link chooser and the selection step *)

Section Selection.

Lemma buttons_onOpen items :
  buttons (onOpen items) = List.map choiceOf items ++ [(str "Cancel", None)].
Proof.
  unfold onOpen. cbn [buttons].
  induction items as [|it items IH]; [reflexivity|].
  cbn [flat_map List.map app buttons]. rewrite IH. reflexivity.
Qed.

Lemma choose_cancel items :
  chooseAudioLinkModal items (ClickButton (length items)) = Some None.
Proof.
  unfold chooseAudioLinkModal. rewrite buttons_onOpen.
  rewrite nth_error_app2 by (rewrite length_map; lia).
  rewrite length_map, Nat.sub_diag. reflexivity.
Qed.

Lemma choose_item items n it :
  nth_error items n = Some it ->
  chooseAudioLinkModal items (ClickButton n) = Some (Some it).
Proof.
  intros H. unfold chooseAudioLinkModal. rewrite buttons_onOpen.
  rewrite nth_error_app1
    by (rewrite length_map; apply nth_error_Some; congruence).
  rewrite nth_error_map, H. reflexivity.
Qed.

(** Steps 4 to 7 only add notices to the trace. *)
Lemma transcribeSelected_trace app editor selected sofar :
  exists notices,
    trace (transcribeSelected app editor selected sofar)
    = sofar
      ++ Notice (str "Transcribing: " ++ path (tfile selected) ++ str " ...")
      :: List.map Notice notices.
Proof.
  unfold transcribeSelected.
  destruct (adapterBasePath app) as [root|].
  - destruct (runWhisperCLI _ _ _ _) as [fs'|].
    + destruct (readTranscriptFile _ _) as [t|];
        eexists [_]; cbn [trace List.map]; rewrite <- app_assoc; reflexivity.
    + eexists [_]; cbn [trace List.map]; rewrite <- app_assoc; reflexivity.
  - eexists [_]; cbn [trace List.map]; rewrite <- app_assoc; reflexivity.
Qed.

End Selection.

(** C7.  After the scan and the resolution: with no resolved reference
    the run is one notice and ends, the document untouched; with exactly
    one the run goes on with it and no dialog is ever opened; with two or
    more the run first opens the dialog, whose buttons are one per
    reference, labelled with its file path and resolving to it, then a
    Cancel button resolving to [null]; a click on Cancel ends the run
    there, with no notice and the document untouched, and a click on a
    reference goes on with that reference. *)
Theorem selection_step :
  forall (app : App) (editor : Editor) (currentFilePath : JSString),
  exists linkMatches,
    findAudioLinkMatches (getValue editor) = Some linkMatches /\
    let audioFiles := resolveMatchesToFiles app linkMatches currentFilePath in
    let run := transcribeAudioInCurrentNote app editor currentFilePath in
    match audioFiles with
    | [] =>
        run = mkRun [Notice (str "No valid audio links found in this note.")]
                    editor Finished
    | [only] =>
        run = transcribeSelected app editor only [] /\
        Forall (fun ev => isModal ev = false) (trace run)
    | _ :: _ :: _ =>
        (exists rest, trace run = ModalOpened (onOpen audioFiles) :: rest) /\
        buttons (onOpen audioFiles)
        = List.map choiceOf audioFiles ++ [(str "Cancel", None)] /\
        (user app = ClickButton (length audioFiles) ->
         run = mkRun [ModalOpened (onOpen audioFiles)] editor Finished) /\
        (forall n item,
            user app = ClickButton n -> nth_error audioFiles n = Some item ->
            run = transcribeSelected app editor item
                    [ModalOpened (onOpen audioFiles)])
    end.
Proof.
  intros app editor p.
  destruct (findAudioLinkMatches_returns (getValue editor)) as (ms & Hms).
  exists ms. split; [exact Hms|].
  unfold transcribeAudioInCurrentNote. rewrite Hms. cbv zeta.
  destruct (resolveMatchesToFiles app ms p) as [|a [|b l]] eqn:E.
  - reflexivity.
  - split; [reflexivity|].
    destruct (transcribeSelected_trace app editor a []) as (ns & ->).
    cbn [List.app]. constructor; [reflexivity|].
    apply Forall_forall. intros ev Hin. apply in_map_iff in Hin.
    destruct Hin as (x & <- & _). reflexivity.
  - split; [|split; [|split]].
    + destruct (chooseAudioLinkModal (a :: b :: l) (user app)) as [[c|]|].
      * destruct (transcribeSelected_trace app editor c
                    [ModalOpened (onOpen (a :: b :: l))]) as (ns & ->).
        eexists; reflexivity.
      * eexists; reflexivity.
      * eexists; reflexivity.
    + apply buttons_onOpen.
    + intros ->. rewrite choose_cancel. reflexivity.
    + intros n item -> Hn. rewrite (choose_item _ _ Hn). reflexivity.
Qed.

(* ================================================================== *)
(** ** The transcript reader *)

Section Reader.

Lemma trimStart_spec s :
  exists l, s = l ++ trimStart s /\
            Forall (fun c => isWhiteSpace c = true) l /\
            startsClean (trimStart s).
Proof.
  induction s as [|c s (l & H1 & H2 & H3)].
  - exists []. simpl. auto.
  - cbn [trimStart]. destruct (isWhiteSpace c) eqn:E.
    + exists (c :: l). cbn [app]. rewrite <- H1. auto.
    + exists []. simpl. auto.
Qed.

Lemma trimEnd_spec s :
  exists r, s = trimEnd s ++ r /\
            Forall (fun c => isWhiteSpace c = true) r /\
            startsClean (rev (trimEnd s)).
Proof.
  unfold trimEnd. destruct (trimStart_spec (rev s)) as (l & H1 & H2 & H3).
  exists (rev l). rewrite rev_involutive. repeat split.
  - rewrite <- rev_app_distr, <- H1, rev_involutive. reflexivity.
  - apply Forall_rev. exact H2.
  - exact H3.
Qed.

Lemma trim_spec data : trimmedOf data (trim data).
Proof.
  unfold trim, trimmedOf.
  destruct (trimStart_spec data) as (l & H1 & H2 & H3).
  destruct (trimEnd_spec (trimStart data)) as (r & H4 & H5 & H6).
  exists l, r. repeat split; auto.
  - rewrite <- H4. exact H1.
  - rewrite H4 in H3. destruct (trimEnd (trimStart data)); simpl in *; auto.
Qed.

End Reader.

(** C8.  Once Whisper has returned, the reader is given the path of the
    transcript.  If the file is there, it returns the contents trimmed of
    leading and trailing white space and the run inserts exactly that.
    If the read throws, the run ends at once with the notice that the
    transcript could not be read, and the document is left as it was. *)
Theorem transcript_read_or_abort :
  forall (app : App) (editor : Editor) (selected : AudioLinkFile)
         (sofar : list Event) (vaultRoot : JSString) (fs' : FileSystem),
    adapterBasePath app = Some vaultRoot ->
    let absoluteAudioPath := pathJoin app vaultRoot (path (tfile selected)) in
    runWhisperCLI app (str "/opt/homebrew/bin/whisper") absoluteAudioPath
                  (str "medium") = Returned fs' ->
    let transcriptPath := getTranscriptPathInTmp absoluteAudioPath in
    let run := transcribeSelected app editor selected sofar in
    match fs' transcriptPath with
    | Some data =>
        readTranscriptFile fs' transcriptPath = Returned (trim data) /\
        trimmedOf data (trim data) /\
        editorAfter run
        = insertTranscriptBelowRange editor (Resolver.startPos selected)
            (Resolver.endPos selected) (trim data)
    | None =>
        readTranscriptFile fs' transcriptPath = Thrown /\
        run = mkRun
                (sofar ++
                 [Notice (str "Transcribing: " ++ path (tfile selected)
                          ++ str " ...");
                  Notice (str "Could not read the transcript file.")])
                editor Finished
    end.
Proof.
  intros app editor selected sofar vaultRoot fs' Ha abs Hw tp run.
  unfold run, transcribeSelected. rewrite Ha. fold abs. rewrite Hw. fold tp.
  unfold readTranscriptFile.
  destruct (fs' tp) as [data|].
  - split; [reflexivity|]. split; [apply trim_spec | reflexivity].
  - split; [reflexivity|]. rewrite <- app_assoc. reflexivity.
Qed.

Lemma transcript_read_or_abort_witness :
  transcribeSelected silentHost (mkEditor (str "See [[meeting.m4a]]."))
    (mkAudioLinkFile (mkTFile (str "meeting.m4a")) 4 19) []
  = mkRun [Notice (str "Transcribing: meeting.m4a ...");
           Notice (str "Could not read the transcript file.")]
          (mkEditor (str "See [[meeting.m4a]].")) Finished.
Proof.
  exact (proj2 (@transcript_read_or_abort silentHost
                  (mkEditor (str "See [[meeting.m4a]]."))
                  (mkAudioLinkFile (mkTFile (str "meeting.m4a")) 4 19) []
                  (str "/vault") (fun _ => None) eq_refl eq_refl)).
Defined.

(* ================================================================== *)
(** ** The transcript locator *)

Section Locator.

Lemma class_lit_lower (a c : CodeUnit) :
  ~ (65 <= a <= 90)%N ->
  classMatches true (mkClass false [a]) c = N.eqb (toLowerAscii c) a.
Proof.
  intros Ha. unfold classMatches, Canonicalize, toLowerAscii.
  cbn [invert members existsb xorb]. rewrite orb_false_r.
  destruct (N.leb_spec 97 a), (N.leb_spec a 122),
           (N.leb_spec 97 c), (N.leb_spec c 122),
           (N.leb_spec 65 c), (N.leb_spec c 90); cbn [andb];
    match goal with |- N.eqb ?u ?v = N.eqb ?x ?y =>
      destruct (N.eqb_spec u v), (N.eqb_spec x y) end;
    try reflexivity; lia.
Qed.

Ltac lower_classes :=
  repeat match goal with
  | |- context [classMatches true ?cl ?c] =>
      let a := eval vm_compute in (hd 0%N (members cl)) in
      replace (classMatches true cl c) with (N.eqb (toLowerAscii c) a)
        by (symmetry; apply class_lit_lower; vm_compute;
            intros [H1 H2]; congruence)
  end.

Ltac split_atoms :=
  repeat match goal with
  | |- context [N.eqb (toLowerAscii ?c) ?k] =>
      destruct (N.eqb (toLowerAscii c) k);
      cbn [andb orb option_map rest]
  end.

(** The pattern of the locator matches at [t] exactly when [t] is a dot
    and a recognized extension, and then reads all of [t]. *)
Lemma extRegex_at t i :
  option_map rest (matcher true extRegex (mkState t i []) (fun y => Some y))
  = if isDotExt t then Some [] else None.
Proof.
  norm_re extRegex.
  unfold isDotExt, recognized, dotted. eval_str.
  destruct t as [|c0 [|c1 [|c2 [|c3 [|c4 [|c5 t]]]]]];
    cbn [matcher rest endIndex captures List.map existsb eqb_str app];
    lower_classes; split_atoms; try reflexivity.
Qed.

Lemma search_ext s : forall i,
  match search true extRegex s i with
  | Some (j, y) => rest y = [] /\ exists k, j = i + k /\ cutAtExt s = firstn k s
  | None => cutAtExt s = s
  end.
Proof.
  induction s as [|c s IH]; intros i; cbn [search].
  - pose proof (extRegex_at [] i) as H.
    destruct (matcher true extRegex (mkState [] i []) (fun y => Some y));
      [discriminate H | reflexivity].
  - pose proof (extRegex_at (c :: s) i) as H. cbn [cutAtExt].
    destruct (matcher true extRegex (mkState (c :: s) i []) (fun y => Some y))
      as [y|]; destruct (isDotExt (c :: s)); cbn [option_map] in H;
      try discriminate H.
    + injection H as Hr. split; [exact Hr|].
      exists 0. split; [lia | reflexivity].
    + specialize (IH (S i)).
      destruct (search true extRegex s (S i)) as [[j y]|].
      * destruct IH as (Hr & k & -> & Hk). split; [exact Hr|].
        exists (S k). split; [lia|]. cbn [firstn]. rewrite Hk. reflexivity.
      * rewrite IH. reflexivity.
Qed.

Lemma replace_ext s : replace true extRegex s [] = cutAtExt s.
Proof.
  unfold replace. pose proof (search_ext s 0) as H.
  destruct (search true extRegex s 0) as [[j y]|].
  - destruct H as (Hr & k & -> & Hk). rewrite Hr, Hk. cbn [Nat.add app].
    apply app_nil_r.
  - symmetry; exact H.
Qed.

Lemma eqb_str_eq a : forall b, eqb_str a b = true <-> a = b.
Proof.
  induction a as [|x a IH]; intros [|y b]; cbn [eqb_str];
    try (split; [discriminate | congruence]); [tauto|].
  rewrite andb_true_iff, N.eqb_eq, IH. split; [intros [-> ->] | intros H];
    [reflexivity | inversion H; auto].
Qed.

(** Of two dotted extensions, one cannot be a proper end of the
    other. *)
Lemma dotted_suffix_same_length e e' :
  In e recognized -> In e' recognized ->
  length (dotted e') <= length (dotted e) ->
  skipn (length (dotted e) - length (dotted e')) (dotted e) = dotted e' ->
  length (dotted e') = length (dotted e).
Proof.
  unfold recognized. cbn [In]. intros He He'.
  repeat (destruct He as [<- | He]); [ .. | contradiction];
    repeat (destruct He' as [<- | He']); try contradiction;
    vm_compute; intros _ H; first [reflexivity | discriminate H].
Qed.

Lemma strip_whole_ext s : isDotExt s = true -> stripAudioExtension s = [].
Proof.
  unfold isDotExt. intros H. apply existsb_exists in H.
  destruct H as (e & He & H). apply eqb_str_eq in H.
  assert (L : length s = length (dotted e))
    by (rewrite <- H; symmetry; apply length_map).
  unfold stripAudioExtension.
  destruct (find (fun e0 => endsWithNoCase s (dotted e0)) recognized)
    as [e'|] eqn:F.
  - apply find_some in F. destruct F as (He' & F).
    unfold endsWithNoCase in F. apply andb_true_iff in F.
    destruct F as (F1 & F2). apply Nat.leb_le in F1. apply eqb_str_eq in F2.
    rewrite <- skipn_map, H, L in F2. rewrite L in F1.
    rewrite L, (dotted_suffix_same_length He He' F1 F2), Nat.sub_diag.
    reflexivity.
  - exfalso. pose proof (find_none _ _ F e He) as N. cbn beta in N.
    unfold endsWithNoCase in N. rewrite L, Nat.leb_refl, Nat.sub_diag in N.
    cbn [skipn andb] in N. rewrite H in N.
    assert (T : eqb_str (dotted e) (dotted e) = true)
      by (apply eqb_str_eq; reflexivity).
    congruence.
Qed.

Lemma endsWith_cons c s e :
  In e recognized -> isDotExt (c :: s) = false ->
  endsWithNoCase (c :: s) (dotted e) = endsWithNoCase s (dotted e).
Proof.
  intros He Hn. unfold endsWithNoCase. cbn [length].
  destruct (Nat.leb_spec (length (dotted e)) (length s)) as [Hle|Hgt].
  - replace (length (dotted e) <=? S (length s)) with true
      by (symmetry; apply Nat.leb_le; lia).
    replace (S (length s) - length (dotted e))
      with (S (length s - length (dotted e))) by lia.
    reflexivity.
  - cbn [andb]. destruct (Nat.leb_spec (length (dotted e)) (S (length s)));
      [|reflexivity].
    replace (S (length s) - length (dotted e)) with 0 by lia.
    cbn [skipn andb].
    destruct (eqb_str (List.map toLowerAscii (c :: s)) (dotted e)) eqn:E;
      [|reflexivity].
    exfalso. unfold isDotExt in Hn.
    assert (T : existsb
                  (fun e0 => eqb_str (List.map toLowerAscii (c :: s)) (dotted e0))
                  recognized = true)
      by (apply existsb_exists; exists e; auto).
    congruence.
Qed.

Lemma find_ext_in (f g : JSString -> bool) l :
  (forall x, In x l -> f x = g x) -> find f l = find g l.
Proof.
  induction l as [|x l IH]; intros H; [reflexivity|].
  cbn [find]. rewrite (H x) by (left; reflexivity).
  rewrite IH by (intros y Hy; apply H; right; exact Hy). reflexivity.
Qed.

Lemma cutAtExt_strip s : cutAtExt s = stripAudioExtension s.
Proof.
  induction s as [|c s IH].
  - reflexivity.
  - cbn [cutAtExt]. destruct (isDotExt (c :: s)) eqn:E.
    + symmetry. apply strip_whole_ext. exact E.
    + rewrite IH. unfold stripAudioExtension.
      rewrite (find_ext_in (fun e => endsWithNoCase (c :: s) (dotted e))
                           (fun e => endsWithNoCase s (dotted e)))
        by (intros e He; apply endsWith_cons; assumption).
      destruct (find (fun e => endsWithNoCase s (dotted e)) recognized)
        as [e|] eqn:F; [|reflexivity].
      apply find_some in F. destruct F as (_ & F).
      unfold endsWithNoCase in F. apply andb_true_iff in F.
      destruct F as (F1 & _). apply Nat.leb_le in F1.
      cbn [length].
      replace (S (length s) - length (dotted e))
        with (S (length s - length (dotted e))) by lia.
      reflexivity.
Qed.

(** [path.basename] on a directory, a separator and a name without
    separator. *)
Lemma basename_of_file dir name :
  name <> [] -> ~ In (cu "/") name ->
  basename (dir ++ str "/" ++ name) = name.
Proof.
  intros Hne Hno. unfold basename.
  rewrite !rev_app_distr. change (rev (str "/")) with [cu "/"].
  assert (Hd : forall r t, r <> [] -> ~ In (cu "/") r ->
                           dropSeps (r ++ t) = r ++ t).
  { intros [|c r] t Hr Hn; [congruence|]. cbn [app dropSeps].
    unfold isSep. destruct (N.eqb_spec c (cu "/")) as [->|]; [|reflexivity].
    exfalso. apply Hn. left; reflexivity. }
  assert (Ht : forall r t, ~ In (cu "/") r ->
                           takeSegment (r ++ cu "/" :: t) = r).
  { induction r as [|c r IHr]; intros t Hn; cbn [app takeSegment].
    - unfold isSep. rewrite N.eqb_refl. reflexivity.
    - unfold isSep. destruct (N.eqb_spec c (cu "/")) as [->|].
      + exfalso. apply Hn. left; reflexivity.
      + rewrite IHr; [reflexivity|]. intros H. apply Hn. right; exact H. }
  assert (Hr : ~ In (cu "/") (rev name))
    by (intros H; apply Hno, in_rev; exact H).
  rewrite <- app_assoc. rewrite Hd.
  - cbn [app]. rewrite Ht by exact Hr. apply rev_involutive.
  - intros H. apply Hne. rewrite <- (rev_involutive name), H. reflexivity.
  - exact Hr.
Qed.

End Locator.

(** C4.  For every audio path the locator returns the output directory
    [/tmp/], then the base name of the path less a trailing dot and
    recognized extension (in any letter case) if it has one, then
    [.txt]. *)
Theorem transcript_path_is_tmp_base_txt :
  forall audioPath,
    getTranscriptPathInTmp audioPath = transcriptPathFor audioPath.
Proof.
  intros audioPath. unfold getTranscriptPathInTmp, transcriptPathFor.
  rewrite replace_ext, cutAtExt_strip. reflexivity.
Qed.

Example transcript_path_example :
  getTranscriptPathInTmp (str "/Users/me/Vault/Audio/Meeting.M4A")
  = str "/tmp/Meeting.txt" /\
  transcriptPathFor (str "/Users/me/Vault/Audio/notes.final.flac")
  = str "/tmp/notes.final.txt" /\
  transcriptPathFor (str "/Users/me/Vault/Audio/readme") = str "/tmp/readme.txt".
Proof. repeat split; vm_compute; reflexivity. Qed.

(* ================================================================== *)
(** ** What the scanner does check of the extension *)

Section ExtensionLetters.

Variable ic : bool.

Lemma star_reads cls s : forall e caps k z,
  star ic cls s e caps k = Some z ->
  exists w s',
    k (mkState s' (e + length w) caps) = Some z /\
    s = w ++ s' /\ allMatch ic cls w.
Proof.
  induction s as [|c s IH]; intros e caps k z H; cbn [star] in H.
  - exists [], []. cbn [length]. rewrite Nat.add_0_r.
    repeat split; [exact H | constructor].
  - destruct (classMatches ic cls c) eqn:E.
    + destruct (star ic cls s (S e) caps k) as [y|] eqn:S1.
      * injection H as ->. destruct (IH _ _ _ _ S1) as (w & s' & Hk & -> & Hw).
        exists (c :: w), s'. repeat split.
        -- rewrite <- Hk. do 2 f_equal. cbn [length]. lia.
        -- constructor; assumption.
      * exists [], (c :: s). cbn [length]. rewrite Nat.add_0_r.
        repeat split; [exact H | constructor].
    + exists [], (c :: s). cbn [length]. rewrite Nat.add_0_r.
      repeat split; [exact H | constructor].
Qed.

Lemma capturedBy_mono r r' c :
  (forall g, In g (groups r) -> In g (groups r')) ->
  capturedBy ic r c -> capturedBy ic r' c.
Proof. intros Hin (a & H1 & H2). exists a. auto. Qed.

(** Whatever the matcher returns went through its continuation after
    reading a word of the pattern; the captures added on the way are
    words read by their groups. *)
Lemma matcher_reads r : forall x k z,
  matcher ic r x k = Some z ->
  exists y w new,
    k y = Some z /\ Reads ic r w /\
    rest x = w ++ rest y /\ endIndex y = endIndex x + length w /\
    captures y = new ++ captures x /\ Forall (capturedBy ic r) new.
Proof.
  induction r as [|cls|a IHa b IHb|a IHa b IHb|cls|n a IHa|];
    intros x k z H; cbn [matcher] in H.
  - exists x, [], []. cbn [length]. rewrite Nat.add_0_r.
    repeat split; [exact H | constructor | constructor].
  - destruct x as [s e caps]; cbn [rest endIndex captures] in *.
    destruct s as [|c s]; [discriminate|].
    destruct (classMatches ic cls c) eqn:E; [|discriminate].
    exists (mkState s (S e) caps), [c], []. cbn [rest endIndex captures length].
    repeat split; [exact H | constructor; exact E | lia | constructor].
  - destruct (IHa _ _ _ H) as (y1 & w1 & n1 & H1 & R1 & S1 & E1 & C1 & F1).
    destruct (IHb _ _ _ H1) as (y2 & w2 & n2 & H2 & R2 & S2 & E2 & C2 & F2).
    exists y2, (w1 ++ w2), (n2 ++ n1). repeat split.
    + exact H2.
    + constructor; assumption.
    + rewrite S1, S2. apply app_assoc.
    + rewrite E2, E1, length_app. lia.
    + rewrite C2, C1. apply app_assoc.
    + apply Forall_app. split.
      * eapply Forall_impl; [|exact F2]. intros c. apply capturedBy_mono.
        intros g Hg. cbn [groups]. apply in_or_app. right; exact Hg.
      * eapply Forall_impl; [|exact F1]. intros c. apply capturedBy_mono.
        intros g Hg. cbn [groups]. apply in_or_app. left; exact Hg.
  - destruct (matcher ic a x k) as [y|] eqn:M.
    + injection H as ->.
      destruct (IHa _ _ _ M) as (y1 & w1 & n1 & H1 & R1 & S1 & E1 & C1 & F1).
      exists y1, w1, n1. repeat split; try assumption.
      * apply ReadsAltL; exact R1.
      * eapply Forall_impl; [|exact F1]. intros c. apply capturedBy_mono.
        intros g Hg. cbn [groups]. apply in_or_app. left; exact Hg.
    + destruct (IHb _ _ _ H) as (y1 & w1 & n1 & H1 & R1 & S1 & E1 & C1 & F1).
      exists y1, w1, n1. repeat split; try assumption.
      * apply ReadsAltR; exact R1.
      * eapply Forall_impl; [|exact F1]. intros c. apply capturedBy_mono.
        intros g Hg. cbn [groups]. apply in_or_app. right; exact Hg.
  - destruct x as [s e caps]; cbn [rest endIndex captures] in *.
    destruct (star_reads _ _ _ _ _ H) as (w & s' & Hk & -> & Hw).
    exists (mkState s' (e + length w) caps), w, [].
    cbn [rest endIndex captures].
    repeat split; [exact Hk | constructor; exact Hw | constructor].
  - destruct (IHa _ _ _ H) as (y1 & w1 & n1 & H1 & R1 & S1 & E1 & C1 & F1).
    eexists _, w1, ((n, w1) :: n1). split; [exact H1|].
    cbn [rest endIndex captures]. repeat split.
    + constructor; exact R1.
    + exact S1.
    + exact E1.
    + rewrite C1, S1, E1. cbn [app]. do 2 f_equal.
      apply firstn_prefix1. lia.
    + constructor.
      * exists a. cbn [fst snd groups]. split; [left; reflexivity | exact R1].
      * eapply Forall_impl; [|exact F1]. intros c. apply capturedBy_mono.
        intros g Hg. cbn [groups]. right; exact Hg.
  - destruct x as [s e caps]; cbn [rest endIndex captures] in *.
    destruct s; [|discriminate].
    exists (mkState [] e caps), [], []. cbn [rest endIndex captures length].
    rewrite Nat.add_0_r. repeat split; [exact H | constructor | constructor].
Qed.

Lemma search_captures r s : forall i idx y,
  search ic r s i = Some (idx, y) -> Forall (capturedBy ic r) (captures y).
Proof.
  assert (M : forall t i y,
             matcher ic r (mkState t i []) (fun y => Some y) = Some y ->
             Forall (capturedBy ic r) (captures y)).
  { intros t i y H.
    destruct (matcher_reads _ _ _ H) as (y1 & w & new & Hy & _ & _ & _ & C & F).
    injection Hy as ->. rewrite C. cbn [captures]. rewrite app_nil_r. exact F. }
  induction s as [|c s IH]; intros i idx y H; cbn [search] in H.
  - destruct (matcher ic r (mkState [] i []) (fun y => Some y)) eqn:E;
      [|discriminate].
    injection H as _ ->. exact (M _ _ _ E).
  - destruct (matcher ic r (mkState (c :: s) i []) (fun y => Some y)) eqn:E.
    + injection H as _ ->. exact (M _ _ _ E).
    + exact (IH _ _ _ H).
Qed.

Lemma capture_In n caps u : capture n caps = Some u -> In (n, u) caps.
Proof.
  induction caps as [|[m v] caps IH]; cbn [capture]; [discriminate|].
  destruct (Nat.eqb_spec m n) as [->|_].
  - intros H; injection H as ->. left; reflexivity.
  - intros H. right. exact (IH H).
Qed.

Lemma or_else_cases a b u :
  or_else a b = Some u -> a = Some u \/ b = Some u.
Proof. destruct a as [[|c t]|]; cbn [or_else]; auto. Qed.

End ExtensionLetters.

Ltac read_inv :=
  repeat match goal with
  | H : Reads _ (Seq _ _) _ |- _ => inversion H; subst; clear H
  | H : Reads _ (Class _) _ |- _ => inversion H; subst; clear H
  | H : Reads _ (Alt _ _) _ |- _ => inversion H; subst; clear H
  end.

Ltac letters_known :=
  repeat match goal with
  | H : classMatches true {| invert := false; members := [?a] |} ?c = true |- _ =>
      rewrite (@class_lit_lower a c) in H
        by (vm_compute; intros [H1 H2]; congruence);
      apply N.eqb_eq in H
  end.

(** A word read by [(?:mp3|wav|...)] is an extension up to letter case. *)
Lemma extPattern_reads w :
  Reads true LinkFinder.extPattern w ->
  In (List.map toLowerAscii w) LinkFinder.audioExtensions.
Proof.
  intros H.
  let r := eval vm_compute in LinkFinder.extPattern in
  change LinkFinder.extPattern with r in H.
  unfold LinkFinder.audioExtensions. eval_str.
  read_inv; letters_known; cbn [List.map app];
    repeat match goal with H : toLowerAscii _ = _ |- _ => rewrite H; clear H end;
    cbn [In]; tauto.
Qed.

(** A word read by the body of group 2 or 3. *)
Lemma reference_reads cls w :
  Reads true (Seq (Plus cls) LinkFinder.extPattern) w ->
  endsInExtensionLetters w.
Proof.
  intros H. inversion H as [| |a b u v Hu Hv| | | | |]; subst.
  exists u, v. split; [reflexivity|]. split.
  - unfold Plus in Hu. inversion Hu as [| |a b u1 v1 Hu1 Hv1| | | | |]; subst.
    inversion Hu1; subst. discriminate.
  - apply extPattern_reads; exact Hv.
Qed.

Lemma linkRegex_capture n u :
  (n = 2 \/ n = 3) ->
  capturedBy true LinkFinder.linkRegex (n, u) -> endsInExtensionLetters u.
Proof.
  intros Hn (a & Hin & Hr). cbn [fst snd] in *.
  cbn in Hin. destruct Hin as [E|[E|[E|[]]]];
    injection E as <- <-; try (destruct Hn; discriminate);
    eapply reference_reads; exact Hr.
Qed.

Lemma scanLoop_extension_letters : forall fuel text lastIndex acc res,
  Forall (fun m => endsInExtensionLetters (linkText m)) acc ->
  scanLoop LinkFinder.linkRegex fuel text lastIndex acc = Some res ->
  Forall (fun m => endsInExtensionLetters (linkText m)) res.
Proof.
  induction fuel as [|fuel IH]; intros text lastIndex acc res Hacc H;
    cbn [scanLoop] in H; [discriminate|].
  destruct (exec true LinkFinder.linkRegex text lastIndex) as [[idx y]|] eqn:E.
  - destruct (or_else (capture 2 (captures y)) (capture 3 (captures y)))
      as [[|c t]|] eqn:O; try exact (IH _ _ _ _ Hacc H).
    refine (IH _ _ _ _ _ H). apply Forall_app. split; [exact Hacc|].
    constructor; [|constructor]. cbn [linkText].
    unfold exec in E. destruct (length text <? lastIndex); [discriminate|].
    apply search_captures in E.
    apply or_else_cases in O. destruct O as [O|O]; apply capture_In in O;
      (eapply linkRegex_capture;
       [|exact (proj1 (Forall_forall _ _) E _ O)]); auto.
  - injection H as <-. exact Hacc.
Qed.

(** Every match the scanner returns has, as reference text, at least one
    character followed by the letters of a recognized extension in any
    letter case.  (No dot is asked for.) *)
Lemma scanner_matches_end_in_extension_letters text ms :
  findAudioLinkMatches text = Some ms ->
  Forall (fun m => endsInExtensionLetters (linkText m)) ms.
Proof.
  unfold findAudioLinkMatches. apply scanLoop_extension_letters. constructor.
Qed.

(* ================================================================== *)
(** ** Scenarios of the specification *)

(** No reference, no match. *)
Example scan_without_reference :
  findAudioLinkMatches (str "Notes of [today](notes.md), see [[agenda]].")
  = Some [].
Proof. vm_compute. reflexivity. Qed.

(** Two references, the second with upper-case extension: two matches,
    from left to right. *)
Example scan_two_references :
  findAudioLinkMatches (str "[[a.mp3]] then [talk](rec/talk.WAV)")
  = Some [mkLinkMatch (str "a.mp3") 0 9;
          mkLinkMatch (str "rec/talk.WAV") 15 35].
Proof. vm_compute. reflexivity. Qed.

(** The whole command on a note with one reference. *)
Example command_on_one_reference :
  transcribeAudioInCurrentNote transcribingHost
    (mkEditor (str "See [[meeting.m4a]] for notes.")) (str "Inbox/today.md")
  = mkRun [Notice (str "Transcribing: meeting.m4a ...");
           Notice (str "Transcription inserted!")]
          (mkEditor (str "See [[meeting.m4a]] for notes." ++ [LF]
                     ++ str ">[!note] Transcription" ++ [LF]
                     ++ str "Hello world" ++ [LF]))
          Finished.
Proof. vm_compute. reflexivity. Qed.

(** Running the command again on the result adds a second block. *)
Example command_twice :
  getValue
    (editorAfter
       (transcribeAudioInCurrentNote transcribingHost
          (editorAfter
             (transcribeAudioInCurrentNote transcribingHost
                (mkEditor (str "See [[meeting.m4a]] for notes."))
                (str "Inbox/today.md")))
          (str "Inbox/today.md")))
  = str "See [[meeting.m4a]] for notes." ++ [LF] ++ [LF]
    ++ str ">[!note] Transcription" ++ [LF] ++ str "Hello world" ++ [LF]
    ++ str ">[!note] Transcription" ++ [LF] ++ str "Hello world" ++ [LF].
Proof. vm_compute. reflexivity. Qed.

(** Two references and a click on Cancel: the dialog, and nothing else. *)
Example command_cancelled :
  transcribeAudioInCurrentNote (choosingHost (ClickButton 2))
    (mkEditor (str "[[a.mp3]] or [b](b.wav)")) (str "Inbox/today.md")
  = mkRun [ModalOpened
             [H2 (str "Choose an audio link to transcribe");
              Button (str "a.mp3")
                     (Some (mkAudioLinkFile (mkTFile (str "a.mp3")) 0 9));
              Br;
              Button (str "b.wav")
                     (Some (mkAudioLinkFile (mkTFile (str "b.wav")) 13 23));
              Br;
              Button (str "Cancel") None]]
          (mkEditor (str "[[a.mp3]] or [b](b.wav)")) Finished.
Proof. vm_compute. reflexivity. Qed.

(** The same note when the dialog is left without a click: the run stays
    suspended. *)
Example command_left_waiting :
  status (transcribeAudioInCurrentNote (choosingHost Leave)
            (mkEditor (str "[[a.mp3]] or [b](b.wav)")) (str "Inbox/today.md"))
  = Suspended.
Proof. vm_compute. reflexivity. Qed.

(* ================================================================== *)
(** ** Further properties of the scanner *)

Section ScannerShape.

Variable ic : bool.

(** Whatever the matcher returns went through its continuation after a
    parse of the pattern, whose captures are those added to the state. *)
Lemma matcher_parses r : forall x k z,
  matcher ic r x k = Some z ->
  exists y w new,
    k y = Some z /\ Parses ic r w new /\
    rest x = w ++ rest y /\ endIndex y = endIndex x + length w /\
    captures y = new ++ captures x.
Proof.
  induction r as [|cls|a IHa b IHb|a IHa b IHb|cls|n a IHa|];
    intros x k z H; cbn [matcher] in H.
  - exists x, [], []. cbn [length]. rewrite Nat.add_0_r.
    repeat split; [exact H | constructor].
  - destruct x as [s e caps]; cbn [rest endIndex captures] in *.
    destruct s as [|c s]; [discriminate|].
    destruct (classMatches ic cls c) eqn:E; [|discriminate].
    exists (mkState s (S e) caps), [c], []. cbn [rest endIndex captures length].
    repeat split; [exact H | constructor; exact E | lia].
  - destruct (IHa _ _ _ H) as (y1 & w1 & n1 & H1 & R1 & S1 & E1 & C1).
    destruct (IHb _ _ _ H1) as (y2 & w2 & n2 & H2 & R2 & S2 & E2 & C2).
    exists y2, (w1 ++ w2), (n2 ++ n1). repeat split.
    + exact H2.
    + constructor; assumption.
    + rewrite S1, S2. apply app_assoc.
    + rewrite E2, E1, length_app. lia.
    + rewrite C2, C1. apply app_assoc.
  - destruct (matcher ic a x k) as [y|] eqn:M.
    + injection H as ->.
      destruct (IHa _ _ _ M) as (y1 & w1 & n1 & H1 & R1 & S1 & E1 & C1).
      exists y1, w1, n1. repeat split; try assumption.
      apply ParsesAltL; exact R1.
    + destruct (IHb _ _ _ H) as (y1 & w1 & n1 & H1 & R1 & S1 & E1 & C1).
      exists y1, w1, n1. repeat split; try assumption.
      apply ParsesAltR; exact R1.
  - destruct x as [s e caps]; cbn [rest endIndex captures] in *.
    destruct (star_reads _ _ _ _ _ _ H) as (w & s' & Hk & -> & Hw).
    exists (mkState s' (e + length w) caps), w, [].
    cbn [rest endIndex captures].
    repeat split; [exact Hk | constructor; exact Hw].
  - destruct (IHa _ _ _ H) as (y1 & w1 & n1 & H1 & R1 & S1 & E1 & C1).
    eexists _, w1, ((n, w1) :: n1). split; [exact H1|].
    cbn [rest endIndex captures]. repeat split.
    + constructor; exact R1.
    + exact S1.
    + exact E1.
    + rewrite C1, S1, E1. cbn [app]. do 2 f_equal.
      apply firstn_prefix1. lia.
  - destruct x as [s e caps]; cbn [rest endIndex captures] in *.
    destruct s; [|discriminate].
    exists (mkState [] e caps), [], []. cbn [rest endIndex captures length].
    rewrite Nat.add_0_r. repeat split; [exact H | constructor].
Qed.

(** A match found by the search is a parse of the text from its index. *)
Lemma search_parses r s : forall i idx y,
  search ic r s i = Some (idx, y) ->
  exists w,
    Parses ic r w (captures y) /\
    i <= idx /\ skipn (idx - i) s = w ++ rest y /\
    endIndex y = idx + length w.
Proof.
  assert (M : forall t i y,
             matcher ic r (mkState t i []) (fun y => Some y) = Some y ->
             exists w, Parses ic r w (captures y) /\ t = w ++ rest y /\
                       endIndex y = i + length w).
  { intros t i y H.
    destruct (matcher_parses _ _ _ H) as (y1 & w & new & Hy & P & S1 & E1 & C).
    injection Hy as ->. exists w. rewrite C. cbn [captures rest endIndex] in *.
    rewrite app_nil_r. auto. }
  induction s as [|c s IH]; intros i idx y H; cbn [search] in H.
  - destruct (matcher ic r (mkState [] i []) (fun y => Some y)) eqn:E;
      [|discriminate].
    injection H as <- ->. destruct (M _ _ _ E) as (w & P & S1 & E1).
    exists w. rewrite Nat.sub_diag. cbn [skipn]. auto.
  - destruct (matcher ic r (mkState (c :: s) i []) (fun y => Some y)) eqn:E.
    + injection H as <- ->. destruct (M _ _ _ E) as (w & P & S1 & E1).
      exists w. rewrite Nat.sub_diag. cbn [skipn]. auto.
    + destruct (IH _ _ _ H) as (w & P & L & S1 & E1).
      exists w. repeat split; [exact P | lia | | exact E1].
      replace (idx - i) with (S (idx - S i)) by lia. exact S1.
Qed.

Lemma exec_parses r text lastIndex idx y :
  exec ic r text lastIndex = Some (idx, y) ->
  exists w,
    Parses ic r w (captures y) /\
    skipn idx text = w ++ rest y /\ endIndex y = idx + length w.
Proof.
  unfold exec. destruct (Nat.ltb_spec (length text) lastIndex); [discriminate|].
  intros Hs. destruct (search_parses _ _ _ Hs) as (w & P & L & S1 & E1).
  exists w. repeat split; [exact P | | exact E1].
  rewrite skipn_skipn in S1. replace (idx - lastIndex + lastIndex) with idx in S1
    by lia. exact S1.
Qed.

End ScannerShape.

Lemma notc_matches_inv (ch : ascii) (c : CodeUnit) :
  classMatches true (notc ch) c = true -> c <> cu ch.
Proof.
  unfold classMatches, notc. cbn [invert members existsb].
  intros H ->. rewrite N.eqb_refl in H. discriminate.
Qed.

Lemma allMatch_lacks ch s : allMatch true (notc ch) s -> lacks ch s.
Proof.
  intros H Hin. apply (proj1 (Forall_forall _ _) H) in Hin.
  apply notc_matches_inv in Hin. congruence.
Qed.

Lemma Chr_matches_inv (ch : ascii) (c : CodeUnit) :
  caseless (cu ch) ->
  classMatches true (mkClass false [cu ch]) c = true -> c = cu ch.
Proof.
  intros Hc H. unfold classMatches in H. cbn [invert members existsb xorb] in H.
  rewrite Canonicalize_caseless, orb_false_r in H by exact Hc.
  apply N.eqb_eq in H. congruence.
Qed.

Lemma caseless_lparen : caseless (cu "(").
Proof. unfold caseless. vm_compute. left; reflexivity. Qed.

Lemma Parses_Reads ic r w c : Parses ic r w c -> Reads ic r w.
Proof.
  induction 1.
  - constructor.
  - constructor; assumption.
  - constructor; assumption.
  - apply ReadsAltL; assumption.
  - apply ReadsAltR; assumption.
  - constructor; assumption.
  - constructor; assumption.
  - constructor.
Qed.

Lemma Parses_no_groups ic r w c : Parses ic r w c -> groups r = [] -> c = [].
Proof.
  induction 1; cbn [groups]; intros G; try reflexivity; try discriminate.
  - apply app_eq_nil in G. destruct G as [Ga Gb].
    rewrite (IHParses1 Ga), (IHParses2 Gb). reflexivity.
  - apply app_eq_nil in G. apply IHParses, G.
  - apply app_eq_nil in G. apply IHParses, G.
Qed.

(** The letters of an extension, in any case, are none of the
    delimiters. *)
Lemma extension_letters_plain e ch :
  In (List.map toLowerAscii e) LinkFinder.audioExtensions ->
  In ch ["["; "]"; "("; ")"; "/"]%char -> lacks ch e.
Proof.
  intros He Hch Hin.
  assert (L : toLowerAscii (cu ch) = cu ch)
    by (repeat (destruct Hch as [<- | Hch]); try contradiction; reflexivity).
  apply (in_map toLowerAscii) in Hin. rewrite L in Hin.
  revert Hin. generalize (List.map toLowerAscii e) He. clear He L.
  unfold LinkFinder.audioExtensions. cbn [In]. intros l He.
  repeat (destruct He as [<- | He]); [ .. | contradiction];
    repeat (destruct Hch as [<- | Hch]); try contradiction;
    vm_compute; intros H; repeat (destruct H as [H | H]; [discriminate|]);
    exact H.
Qed.

(** A parse of the body of group 2 or 3: no capture inside, and the word
    is a non-empty run of the class followed by extension letters. *)
Lemma parses_reference cls w c :
  Parses true (Seq (Plus cls) LinkFinder.extPattern) w c ->
  c = [] /\
  exists q e, w = q ++ e /\ q <> [] /\ allMatch true cls q /\
              In (List.map toLowerAscii e) LinkFinder.audioExtensions.
Proof.
  intros H. split.
  - apply (Parses_no_groups H). reflexivity.
  - inversion H as [| |a b u v cu cv Hu Hv| | | | |]; subst.
    exists u, v. split; [reflexivity|].
    unfold Plus in Hu.
    inversion Hu as [| |a b u1 v1 cu1 cv1 Hu1 Hv1| | | | |]; subst.
    inversion Hu1 as [|cls0 c0 Hc0| | | | | |]; subst.
    inversion Hv1 as [| | | | |cls1 u2 Hall| |]; subst.
    repeat split.
    + discriminate.
    + constructor; assumption.
    + apply extPattern_reads. eapply Parses_Reads; exact Hv.
Qed.

Ltac parse_inv :=
  repeat match goal with
  | H : Parses _ (Seq (Plus _) LinkFinder.extPattern) _ _ |- _ =>
      apply parses_reference in H;
      let q := fresh "q" in let e := fresh "e" in
      let Hq := fresh "Hq" in let Ha := fresh "Ha" in let He := fresh "He" in
      destruct H as (-> & q & e & -> & Hq & Ha & He)
  | H : Parses _ (Seq _ _) _ _ |- _ => inversion H; subst; clear H
  | H : Parses _ (Group _ _) _ _ |- _ => inversion H; subst; clear H
  | H : Parses _ (Star _) _ _ |- _ => inversion H; subst; clear H
  | H : Parses _ (Class _) _ _ |- _ => inversion H; subst; clear H
  end.

Lemma lit_matches_inv (k c : CodeUnit) :
  caseless k -> classMatches true (mkClass false [k]) c = true -> c = k.
Proof.
  intros Hc H. unfold classMatches in H. cbn [invert members existsb xorb] in H.
  rewrite Canonicalize_caseless, orb_false_r in H by exact Hc.
  apply N.eqb_eq in H. congruence.
Qed.

Ltac delimiters_known :=
  repeat match goal with
  | H : classMatches true {| invert := false; members := [?k] |} ?c = true
    |- _ =>
      apply lit_matches_inv in H; [subst c | unfold caseless; lia]
  end.

(** What a parse of the link pattern looks like. *)
Lemma linkRegex_parses w caps :
  Parses true LinkFinder.linkRegex w caps ->
  (exists label path,
      w = mdLink label path /\ caps = [(2, path); (1, label)] /\
      lacks "]" label /\ lacks ")" path /\ path <> []) \/
  (exists path,
      w = wikiLink path /\ caps = [(3, path)] /\
      lacks "]" path /\ path <> []).
Proof.
  intros H. unfold LinkFinder.linkRegex in H.
  inversion H as [| | |a b u c Ha|a b u c Hb| | |]; subst; clear H.
  - left. unfold markdownAlt, Chr in Ha. parse_inv. delimiters_known.
    eexists _, (q ++ e).
    split; [|split; [|split; [|split]]].
    + unfold mdLink. eval_str. cbn [app]. rewrite <- ?app_assoc. reflexivity.
    + reflexivity.
    + apply allMatch_lacks; assumption.
    + apply lacks_app; [apply allMatch_lacks; assumption|].
      eapply extension_letters_plain; [eassumption|]. cbn; tauto.
    + intros E. apply app_eq_nil in E. tauto.
  - right. unfold wikiAlt, Chr in Hb. parse_inv. delimiters_known.
    exists (q ++ e).
    split; [|split; [|split]].
    + unfold wikiLink. eval_str. cbn [app]. rewrite <- ?app_assoc. reflexivity.
    + reflexivity.
    + apply lacks_app; [apply allMatch_lacks; assumption|].
      eapply extension_letters_plain; [eassumption|]. cbn; tauto.
    + intros E. apply app_eq_nil in E. tauto.
Qed.

Lemma scanLoop_spans : forall fuel text lastIndex acc res,
  Forall (spansReference text) acc ->
  scanLoop LinkFinder.linkRegex fuel text lastIndex acc = Some res ->
  Forall (spansReference text) res.
Proof.
  induction fuel as [|fuel IH]; intros text lastIndex acc res Hacc H;
    cbn [scanLoop] in H; [discriminate|].
  destruct (exec true LinkFinder.linkRegex text lastIndex) as [[idx y]|] eqn:E.
  - destruct (exec_parses _ _ _ _ E) as (w & P & S1 & E1).
    destruct (exec_inv _ _ _ _ E) as (_ & _ & L).
    assert (Hspan : substring text idx (endIndex y) = w).
    { unfold substring. rewrite S1, E1.
      apply firstn_prefix1. lia. }
    destruct (linkRegex_parses P) as
      [(label & path & -> & C & Hl & Hp & Hne) | (path & -> & C & Hp & Hne)];
      rewrite C in H; cbn [capture Nat.eqb or_else] in H;
      (destruct path as [|p0 path]; [congruence|]);
      refine (IH _ _ _ _ _ H); (apply Forall_app; split; [exact Hacc|]);
      (constructor; [|constructor]);
      (split; cbn [LinkFinder.endPos LinkFinder.startPos linkText];
       [exact L | rewrite Hspan]).
    + left. exists label. auto.
    + right. auto.
  - injection H as <-. exact Hacc.
Qed.

(** X1.  On a text without opening bracket the scanner returns no
    match. *)
Theorem scan_of_plain_text_is_empty :
  forall text, lacks "[" text -> findAudioLinkMatches text = Some [].
Proof.
  intros text H. unfold findAudioLinkMatches. cbn [scanLoop].
  unfold exec. cbn [Nat.ltb Nat.leb skipn].
  rewrite search_plain_none; [reflexivity|].
  apply lacks_Forall; exact H.
Qed.

Lemma scan_of_plain_text_is_empty_witness :
  findAudioLinkMatches (str "No recording here (yet).") = Some [].
Proof.
  apply scan_of_plain_text_is_empty.
  vm_compute. intros H. repeat (destruct H as [H | H]; [discriminate|]).
  exact H.
Defined.

(** X2.  Every match the scanner returns lies inside the text, and the
    text of its span is a markdown construct (a bracketed label without
    closing bracket, then the reference text in parentheses, without
    closing parenthesis) or a wiki construct (the reference text in
    double brackets, without closing bracket) around its [linkText]. *)
Theorem scanner_matches_are_references :
  forall text,
  exists ms,
    findAudioLinkMatches text = Some ms /\ Forall (spansReference text) ms.
Proof.
  intros text. destruct (findAudioLinkMatches_returns text) as (ms & H).
  exists ms. split; [exact H|].
  unfold findAudioLinkMatches in H.
  eapply scanLoop_spans; [constructor | exact H].
Qed.

(** X3.  Every match the scanner returns has, as reference text, at least
    one character followed by the letters of a recognized extension in
    any letter case (whether or not a dot comes before them). *)
Theorem scanner_matches_have_extension_letters :
  forall text,
  exists ms,
    findAudioLinkMatches text = Some ms /\
    Forall (fun m => endsInExtensionLetters (linkText m)) ms.
Proof.
  intros text. destruct (findAudioLinkMatches_returns text) as (ms & H).
  exists ms. split; [exact H|].
  eapply scanner_matches_end_in_extension_letters; exact H.
Qed.

(* ================================================================== *)
(** ** Letter case of the extension *)

Section AnyCase.

Lemma class_by_lower (inv : bool) (k c : CodeUnit) :
  ~ (65 <= k <= 90)%N ->
  classMatches true (mkClass inv [k]) c = xorb inv (N.eqb (toLowerAscii c) k).
Proof.
  intros Hk. rewrite <- (class_lit_lower c Hk).
  unfold classMatches. cbn [invert members]. destruct inv; reflexivity.
Qed.

Ltac sym_class :=
  repeat match goal with
  | H : toLowerAscii ?c = ?v |- context [classMatches true ?cl ?c] =>
      let b := eval vm_compute in
                 (xorb (invert cl) (N.eqb v (hd 0%N (members cl)))) in
      replace (classMatches true cl c) with b
        by (symmetry; etransitivity;
            [ apply class_by_lower; vm_compute; intros [? ?]; congruence
            | rewrite H; reflexivity ])
  end.

Ltac letters_of e' Hlow :=
  destruct e' as [|?a [|?a [|?a [|?a [|?a e']]]]];
  try discriminate Hlow; cbn [List.map] in Hlow;
  injection Hlow; clear Hlow; intros.

Lemma markdownAlt_matches_any_case e e' :
  In e LinkFinder.audioExtensions -> List.map toLowerAscii e' = e ->
  forall label c0 stem post i,
  allMatch true (notc "]") label ->
  classMatches true (notc ")") c0 = true ->
  allMatch true (notc ")") stem ->
  matcher true markdownAlt
    (mkState (str "[" ++ label ++ str "](" ++ (c0 :: stem) ++ e' ++ str ")" ++ post)
             i [])
    (fun y => Some y)
  = Some (mkState post
            (i + (length label + length ((c0 :: stem) ++ e') + 4))
            [(2, (c0 :: stem) ++ e'); (1, label)]).
Proof.
  intros He Hlow label c0 stem post i Hl Hc Hs.
  norm_re markdownAlt.
  unfold LinkFinder.audioExtensions in He. cbn [In] in He.
  repeat (destruct He as [<- | He]); [ .. | contradiction];
    revert Hlow; eval_str; intros Hlow; letters_of e' Hlow;
    mstep;
    (apply star_prefix_some; [exact Hl|]); mstep; use_class Hc; mstep;
    (apply star_prefix_some; [exact Hs|]);
    repeat (progress (mstep; sym_class));
    same_state.
Qed.

Lemma wikiAlt_matches_any_case e e' :
  In e LinkFinder.audioExtensions -> List.map toLowerAscii e' = e ->
  forall c0 stem post i,
  classMatches true (notc "]") c0 = true ->
  allMatch true (notc "]") stem ->
  matcher true wikiAlt
    (mkState (str "[[" ++ (c0 :: stem) ++ e' ++ str "]]" ++ post) i [])
    (fun y => Some y)
  = Some (mkState post (i + (length ((c0 :: stem) ++ e') + 4))
            [(3, (c0 :: stem) ++ e')]).
Proof.
  intros He Hlow c0 stem post i Hc Hs.
  norm_re wikiAlt.
  unfold LinkFinder.audioExtensions in He. cbn [In] in He.
  repeat (destruct He as [<- | He]); [ .. | contradiction];
    revert Hlow; eval_str; intros Hlow; letters_of e' Hlow;
    mstep; use_class Hc; mstep;
    (apply star_prefix_some; [exact Hs|]);
    repeat (progress (mstep; sym_class));
    same_state.
Qed.

End AnyCase.

Lemma md_reference_match_any_case e e' :
  In e LinkFinder.audioExtensions -> List.map toLowerAscii e' = e ->
  forall label p post i,
  p <> [] -> lacks "]" label -> lacks ")" p ->
  matcher true LinkFinder.linkRegex
    (mkState (mdLink label (p ++ e') ++ post) i []) (fun y => Some y)
  = Some (mkState post (i + length (mdLink label (p ++ e')))
            [(2, p ++ e'); (1, label)]).
Proof.
  intros He Hlow label p post i Hp Hl Hpp.
  destruct p as [|c0 stem]; [congruence|].
  unfold LinkFinder.linkRegex. cbn [matcher].
  replace (mdLink label ((c0 :: stem) ++ e') ++ post)
    with (str "[" ++ label ++ str "](" ++ (c0 :: stem) ++ e' ++ str ")" ++ post)
    by (unfold mdLink; rewrite <- !app_assoc; reflexivity).
  rewrite (@markdownAlt_matches_any_case e e' He Hlow).
  - do 2 f_equal. unfold mdLink. eval_str.
    rewrite ?length_app; cbn [length]; rewrite ?length_app; cbn [length]. lia.
  - apply lacks_allMatch; [exact caseless_rbracket | exact Hl].
  - apply notc_matches; [exact caseless_rparen|].
    intros ->. apply Hpp. left; reflexivity.
  - apply lacks_allMatch; [exact caseless_rparen|].
    intros Hin. apply Hpp. right; exact Hin.
Qed.

Lemma wiki_reference_match_any_case e e' :
  In e LinkFinder.audioExtensions -> List.map toLowerAscii e' = e ->
  forall p post i,
  p <> [] -> lacks "]" p ->
  matcher true LinkFinder.linkRegex
    (mkState (wikiLink (p ++ e') ++ post) i []) (fun y => Some y)
  = Some (mkState post (i + length (wikiLink (p ++ e'))) [(3, p ++ e')]).
Proof.
  intros He Hlow p post i Hp Hpp.
  destruct p as [|c0 stem]; [congruence|].
  unfold LinkFinder.linkRegex. cbn [matcher].
  replace (wikiLink ((c0 :: stem) ++ e') ++ post)
    with (str "[" ++ (str "[" ++ (c0 :: stem) ++ e') ++ str "]]" ++ post)
    by (unfold wikiLink; rewrite <- !app_assoc; reflexivity).
  rewrite markdownAlt_fails_on_wiki.
  - replace (str "[" ++ (str "[" ++ (c0 :: stem) ++ e') ++ str "]]" ++ post)
      with (str "[[" ++ (c0 :: stem) ++ e' ++ str "]]" ++ post)
      by (rewrite <- !app_assoc; reflexivity).
    rewrite (@wikiAlt_matches_any_case e e' He Hlow).
    + do 2 f_equal. unfold wikiLink. eval_str.
      rewrite ?length_app; cbn [length]; rewrite ?length_app; cbn [length]. lia.
    + apply notc_matches; [exact caseless_rbracket|].
      intros ->. apply Hpp. left; reflexivity.
    + apply lacks_allMatch; [exact caseless_rbracket|].
      intros Hin. apply Hpp. right; exact Hin.
  - apply lacks_Forall. apply lacks_app.
    + vm_compute. intros [H|[]]; discriminate.
    + apply lacks_app; [exact Hpp|].
      apply extension_letters_plain; [rewrite Hlow; exact He|].
      right; left; reflexivity.
Qed.

(** One reference whose extension is written in any letter case. *)
Lemma scan_one_reference e e' :
  In e LinkFinder.audioExtensions -> List.map toLowerAscii e' = e ->
  forall pre label stem post,
    lacks "[" pre -> lacks "[" post ->
    let path := stem ++ str "." ++ e' in
    (lacks "]" label -> lacks ")" stem ->
     findAudioLinkMatches (pre ++ mdLink label path ++ post)
     = Some [mkLinkMatch path (length pre)
                         (length pre + length (mdLink label path))]) /\
    (lacks "]" stem ->
     findAudioLinkMatches (pre ++ wikiLink path ++ post)
     = Some [mkLinkMatch path (length pre)
                         (length pre + length (wikiLink path))]).
Proof.
  intros He Hlow pre label stem post Hpre Hpost path.
  assert (Epath : path = (stem ++ str ".") ++ e')
    by (unfold path; rewrite <- app_assoc; reflexivity).
  assert (Hne : stem ++ str "." <> [])
    by (intros H; apply app_eq_nil in H; destruct H; discriminate).
  assert (Hpath : path <> [])
    by (rewrite Epath; intros H; apply app_eq_nil in H; tauto).
  assert (Hdot : forall ch, In ch [")"; "]"]%char -> lacks ch (str ".")).
  { intros ch [<- | [<- | []]]; vm_compute; intros [H|[]]; discriminate. }
  split.
  - intros Hl Hs.
    apply scan_single with (caps := [(2, path); (1, label)]);
      try (apply lacks_Forall; assumption); try assumption.
    + unfold mdLink. discriminate.
    + rewrite Epath. apply (@md_reference_match_any_case e e' He Hlow); auto.
      apply lacks_app; [exact Hs | apply Hdot; left; reflexivity].
    + destruct path; [congruence | reflexivity].
  - intros Hs.
    apply scan_single with (caps := [(3, path)]);
      try (apply lacks_Forall; assumption); try assumption.
    + unfold wikiLink. discriminate.
    + rewrite Epath. apply (@wiki_reference_match_any_case e e' He Hlow); auto.
      apply lacks_app; [exact Hs | apply Hdot; right; left; reflexivity].
    + destruct path; [congruence | reflexivity].
Qed.

(** X4.  The extension is recognized in any letter case: a document with
    one reference to [stem.e'], where [e'] is a recognized extension up to
    the case of its letters, is scanned to exactly one match whose
    reference text is the path as written, for both syntaxes. *)
Theorem extension_case_is_ignored :
  forall e', In (List.map toLowerAscii e') LinkFinder.audioExtensions ->
  forall pre label stem post,
    lacks "[" pre -> lacks "[" post ->
    let path := stem ++ str "." ++ e' in
    (lacks "]" label -> lacks ")" stem ->
     findAudioLinkMatches (pre ++ mdLink label path ++ post)
     = Some [mkLinkMatch path (length pre)
                         (length pre + length (mdLink label path))]) /\
    (lacks "]" stem ->
     findAudioLinkMatches (pre ++ wikiLink path ++ post)
     = Some [mkLinkMatch path (length pre)
                         (length pre + length (wikiLink path))]).
Proof.
  intros e' He. exact (@scan_one_reference _ e' He eq_refl).
Qed.

Lemma extension_case_is_ignored_witness :
  findAudioLinkMatches (str "Listen to [[Memo 12.M4A]] first")
  = Some [mkLinkMatch (str "Memo 12.M4A") 10 25].
Proof.
  assert (P : forall ch s,
             (if in_dec N.eq_dec (cu ch) s then false else true) = true ->
             lacks ch s).
  { intros ch s H Hin.
    destruct (in_dec N.eq_dec (cu ch) s); [discriminate | tauto]. }
  refine (proj2 (@extension_case_is_ignored (str "M4A") _
                   (str "Listen to ") [] (str "Memo 12") (str " first") _ _) _).
  - right; right; left; reflexivity.
  - apply P; reflexivity.
  - apply P; reflexivity.
  - apply P; reflexivity.
Defined.

Lemma scanners_agree_on_markdown_only_witness :
  option_map (List.map asTriple)
    (findAudioLinkMatches (str "[intro](a.mp3) and [talk](b/c.WAV)"))
  = option_map (List.map asTriple')
      (Main.findAudioLinks (str "[intro](a.mp3) and [talk](b/c.WAV)")).
Proof.
  apply scanners_agree_on_markdown_only. reflexivity.
Defined.

(* ================================================================== *)
(** ** The scanner of the single-file version *)

Section MainScanner.

Lemma chainedLinks_weaken lo lo' ls :
  lo <= lo' -> chainedLinks lo' ls -> chainedLinks lo ls.
Proof.
  destruct ls; simpl; [auto|]. intros ? (? & ? & ?). repeat split; auto; lia.
Qed.

Lemma chainedLinks_nonempty lo ls :
  chainedLinks lo ls ->
  Forall (fun l => Main.startPos l < Main.endPos l) ls.
Proof.
  revert lo. induction ls as [|l ls IH]; intros lo H; constructor.
  - apply H.
  - apply (IH (Main.endPos l)), H.
Qed.

Lemma chainedLinks_consecutive ls : forall lo i a b,
  chainedLinks lo ls ->
  nth_error ls i = Some a -> nth_error ls (S i) = Some b ->
  Main.endPos a <= Main.startPos b.
Proof.
  induction ls as [|l ls IH]; intros lo i a b H Ha Hb.
  - destruct i; discriminate.
  - destruct H as (_ & _ & H). destruct i as [|i]; simpl in Ha, Hb.
    + inversion Ha; subst. destruct ls as [|l' ls]; [discriminate|].
      inversion Hb; subst. apply H.
    + exact (IH _ _ _ _ H Ha Hb).
Qed.

Variable re : Regex.
Hypothesis re_consumes : 0 < minLen re.

Lemma main_scanLoop_chained : forall fuel text lastIndex acc res,
  Main.scanLoop re fuel text lastIndex acc = Some res ->
  exists new, res = acc ++ new /\ chainedLinks lastIndex new.
Proof.
  induction fuel as [|fuel IH]; intros text lastIndex acc res H;
    simpl in H; [discriminate|].
  destruct (exec true re text lastIndex) as [[idx y]|] eqn:E.
  - destruct (exec_inv _ _ _ _ E) as (L1 & L2 & L3).
    destruct (or_else (capture 2 (captures y)) (capture 3 (captures y)))
      as [[|c t]|].
    + destruct (IH _ _ _ _ H) as (new & -> & C).
      exists new; split; [reflexivity|].
      apply chainedLinks_weaken with (lo' := endIndex y); [lia | exact C].
    + destruct (IH _ _ _ _ H) as (new & -> & C).
      exists (Main.mkAudioLink (c :: t) idx (endIndex y) :: new).
      rewrite <- app_assoc. split; [reflexivity|].
      simpl. repeat split; [lia | lia | exact C].
    + destruct (IH _ _ _ _ H) as (new & -> & C).
      exists new; split; [reflexivity|].
      apply chainedLinks_weaken with (lo' := endIndex y); [lia | exact C].
  - inversion H; subst. exists []. rewrite app_nil_r. simpl; auto.
Qed.

Lemma main_scanLoop_returns : forall fuel text lastIndex acc,
  length text - lastIndex < fuel ->
  exists res, Main.scanLoop re fuel text lastIndex acc = Some res.
Proof.
  induction fuel as [|fuel IH]; intros text lastIndex acc Hf; [lia|].
  simpl.
  destruct (exec true re text lastIndex) as [[idx y]|] eqn:E.
  - destruct (exec_inv _ _ _ _ E) as (L1 & L2 & L3).
    destruct (or_else (capture 2 (captures y)) (capture 3 (captures y)))
      as [[|c t]|]; apply IH; lia.
  - eexists; reflexivity.
Qed.

End MainScanner.

Lemma main_linkRegex_consumes : 0 < minLen Main.linkRegex.
Proof. vm_compute. lia. Qed.

(** X5.  The scanner of src/main.ts returns for every text; each link it
    returns has [startPos < endPos], and each link ends at or before the
    start of the next. *)
Theorem main_scanner_spans_ordered : forall text,
  exists ls,
    Main.findAudioLinks text = Some ls /\
    Forall (fun l => Main.startPos l < Main.endPos l) ls /\
    (forall i a b,
        nth_error ls i = Some a -> nth_error ls (S i) = Some b ->
        Main.endPos a <= Main.startPos b).
Proof.
  intros text. unfold Main.findAudioLinks.
  destruct (@main_scanLoop_returns Main.linkRegex main_linkRegex_consumes
              (S (length text)) text 0 []) as (ls & H); [lia|].
  exists ls. split; [exact H|].
  apply main_scanLoop_chained in H; [|exact main_linkRegex_consumes].
  destruct H as (new & -> & C). simpl. split.
  - eapply chainedLinks_nonempty; exact C.
  - intros i a b. eapply chainedLinks_consecutive; exact C.
Qed.

(* ================================================================== *)
(** ** Further properties of the resolver *)

Section ResolverMore.

Variables (app : App) (currentFilePath : JSString).

Lemma resolveLoop_acc ms : forall acc,
  resolveLoop app ms currentFilePath acc
  = acc ++ resolveLoop app ms currentFilePath [].
Proof.
  induction ms as [|m ms IH]; intros acc; cbn [resolveLoop].
  - symmetry; apply app_nil_r.
  - destruct (getFirstLinkpathDest app (linkText m) currentFilePath) as [tf|].
    + rewrite IH. rewrite (IH ([] ++ _)). cbn [List.app].
      rewrite <- app_assoc. reflexivity.
    + apply IH.
Qed.

Lemma chained_filter f ms : forall lo,
  chained lo ms -> chained lo (filter f ms).
Proof.
  induction ms as [|m ms IH]; intros lo H; cbn [filter]; [exact H|].
  destruct H as (H1 & H2 & H3). destruct (f m).
  - cbn [chained]. repeat split; [exact H1 | exact H2 | apply IH; exact H3].
  - apply chained_weaken with (lo' := LinkFinder.endPos m); [lia|].
    apply IH; exact H3.
Qed.

Lemma chainedFiles_of_matches rs : forall ms lo,
  Forall2 (resolvedFrom app currentFilePath) rs ms ->
  chained lo ms -> chainedFiles lo rs.
Proof.
  induction rs as [|r rs IH]; intros ms lo F C; [exact I|].
  inversion F as [|r' m rs' ms' (_ & Hs & He) F']; subst.
  destruct C as (C1 & C2 & C3). cbn [chainedFiles]. rewrite Hs, He.
  repeat split; [exact C1 | exact C2 | exact (IH _ _ F' C3)].
Qed.

Lemma chainedFiles_nonempty rs : forall lo,
  chainedFiles lo rs ->
  Forall (fun r => Resolver.startPos r < Resolver.endPos r) rs.
Proof.
  induction rs as [|r rs IH]; intros lo H; constructor.
  - apply H.
  - apply (IH (Resolver.endPos r)), H.
Qed.

Lemma chainedFiles_consecutive rs : forall lo i a b,
  chainedFiles lo rs ->
  nth_error rs i = Some a -> nth_error rs (S i) = Some b ->
  Resolver.endPos a <= Resolver.startPos b.
Proof.
  induction rs as [|r rs IH]; intros lo i a b H Ha Hb.
  - destruct i; discriminate.
  - destruct H as (_ & _ & H). destruct i as [|i]; simpl in Ha, Hb.
    + inversion Ha; subst. destruct rs as [|r' rs]; [discriminate|].
      inversion Hb; subst. apply H.
    + exact (IH _ _ _ _ H Ha Hb).
Qed.

End ResolverMore.

(** X7.  Resolving a sequence of matches made of two parts gives the
    results of the first part followed by those of the second: each match
    is resolved on its own, whatever comes before or after it. *)
Theorem resolver_distributes_over_append :
  forall (app : App) (currentFilePath : JSString) (ms1 ms2 : list LinkMatch),
    resolveMatchesToFiles app (ms1 ++ ms2) currentFilePath
    = resolveMatchesToFiles app ms1 currentFilePath
      ++ resolveMatchesToFiles app ms2 currentFilePath.
Proof.
  intros app p ms1 ms2. unfold resolveMatchesToFiles.
  induction ms1 as [|m ms1 IH]; [reflexivity|].
  cbn [List.app resolveLoop].
  destruct (getFirstLinkpathDest app (linkText m) p) as [tf|]; [|exact IH].
  rewrite (resolveLoop_acc app p (ms1 ++ ms2)), (resolveLoop_acc app p ms1).
  rewrite IH, <- app_assoc. reflexivity.
Qed.

(** X8.  What the command hands to the selection step, the resolved
    references of the scanned note, keeps the order of the scan: every
    entry has [startPos < endPos] and each entry ends at or before the
    start of the next. *)
Theorem resolved_references_ordered :
  forall (app : App) (text currentFilePath : JSString),
  exists ms,
    findAudioLinkMatches text = Some ms /\
    let rs := resolveMatchesToFiles app ms currentFilePath in
    Forall (fun r => Resolver.startPos r < Resolver.endPos r) rs /\
    (forall i a b,
        nth_error rs i = Some a -> nth_error rs (S i) = Some b ->
        Resolver.endPos a <= Resolver.startPos b).
Proof.
  intros app text p. destruct (findAudioLinkMatches_returns text) as (ms & H).
  exists ms. split; [exact H|].
  unfold findAudioLinkMatches in H.
  apply scanLoop_chained in H; [|exact linkRegex_consumes].
  destruct H as (new & -> & C). cbn [List.app] in *.
  unfold resolveMatchesToFiles.
  destruct (resolveLoop_spec app p new []) as (out & -> & F).
  cbn [List.app].
  assert (CF : chainedFiles 0 out).
  { eapply chainedFiles_of_matches; [exact F|]. apply chained_filter. exact C. }
  split.
  - eapply chainedFiles_nonempty; exact CF.
  - intros i a b. eapply chainedFiles_consecutive; exact CF.
Qed.

(* ================================================================== *)
(** ** Further properties of the transcript locator *)

Section LocatorMore.

Lemma isDotExt_dotted t :
  isDotExt t = true ->
  exists e, In e recognized /\ List.map toLowerAscii t = dotted e.
Proof.
  unfold isDotExt. intros H. apply existsb_exists in H.
  destruct H as (e & He & H). apply eqb_str_eq in H. eauto.
Qed.

(** Nothing longer than a dotted extension, and ending in one, is a
    dotted extension. *)
Lemma isDotExt_longer t c b :
  isDotExt t = true -> isDotExt (c :: b ++ t) = false.
Proof.
  intros Ht. destruct (isDotExt (c :: b ++ t)) eqn:E; [|reflexivity].
  exfalso.
  destruct (@isDotExt_dotted _ Ht) as (e1 & H1 & L1).
  destruct (@isDotExt_dotted _ E) as (e2 & H2 & L2).
  cbn [List.map] in L2. rewrite map_app, L1 in L2. clear L1 Ht E.
  unfold recognized in H1, H2. cbn [In] in H1, H2.
  repeat (destruct H1 as [<- | H1]); [ .. | contradiction];
    repeat (destruct H2 as [<- | H2]); try contradiction;
    destruct b as [|? [|? [|? [|? [|? b]]]]];
    vm_compute in L2; congruence.
Qed.

Lemma cutAtExt_app stem t :
  isDotExt t = true -> cutAtExt (stem ++ t) = stem.
Proof.
  intros Ht. induction stem as [|c stem IH].
  - destruct t; cbn [List.app cutAtExt]; rewrite Ht; reflexivity.
  - cbn [List.app cutAtExt]. rewrite (@isDotExt_longer t c stem Ht), IH.
    reflexivity.
Qed.

Lemma cutAtExt_prefix s : exists suffix, s = cutAtExt s ++ suffix.
Proof.
  induction s as [|c s (suffix & IH)].
  - exists []. reflexivity.
  - cbn [cutAtExt]. destruct (isDotExt (c :: s)).
    + exists (c :: s). reflexivity.
    + exists suffix. cbn [List.app]. rewrite <- IH. reflexivity.
Qed.

Lemma takeSegment_no_sep s : ~ In (cu "/") (takeSegment s).
Proof.
  induction s as [|c s IH]; cbn [takeSegment]; [tauto|].
  unfold isSep. destruct (N.eqb_spec c (cu "/")) as [E|E]; [tauto|].
  intros [H|H]; [congruence | tauto].
Qed.

Lemma basename_no_sep p : lacks "/" (basename p).
Proof.
  unfold lacks, basename. rewrite <- in_rev. apply takeSegment_no_sep.
Qed.

Lemma find_all_false (f : JSString -> bool) l :
  (forall x, In x l -> f x = false) -> find f l = None.
Proof.
  induction l as [|x l IH]; intros H; [reflexivity|].
  cbn [find]. rewrite (H x) by (left; reflexivity).
  apply IH. intros y Hy. apply H. right; exact Hy.
Qed.

End LocatorMore.

(** X9.  For an audio file [stem.e'] in any directory, with [e'] a
    recognized extension in any letter case, the transcript is looked for
    at [/tmp/stem.txt]: the directory plays no part, and only the last
    extension is removed. *)
Theorem transcript_path_of_audio_file :
  forall dir stem e',
    In (List.map toLowerAscii e') recognized ->
    lacks "/" stem ->
    getTranscriptPathInTmp (dir ++ str "/" ++ stem ++ str "." ++ e')
    = str "/tmp/" ++ stem ++ str ".txt".
Proof.
  intros dir stem e' He Hs. unfold getTranscriptPathInTmp.
  rewrite basename_of_file.
  - rewrite replace_ext.
    change (stem ++ str "." ++ e') with (stem ++ dotted e').
    rewrite cutAtExt_app; [reflexivity|].
    unfold isDotExt. apply existsb_exists.
    exists (List.map toLowerAscii e'). split; [exact He|].
    apply eqb_str_eq. reflexivity.
  - intros H. apply app_eq_nil in H. destruct H as [_ H]. discriminate.
  - apply lacks_app; [exact Hs|]. apply lacks_app.
    + vm_compute. intros [H|[]]; discriminate.
    + apply extension_letters_plain; [exact He|]. cbn; tauto.
Qed.

Lemma transcript_path_of_audio_file_witness :
  getTranscriptPathInTmp (str "/Users/me/Vault/Audio/talk.v2.mp3.WAV")
  = str "/tmp/talk.v2.mp3.txt".
Proof.
  refine (@transcript_path_of_audio_file (str "/Users/me/Vault/Audio")
            (str "talk.v2.mp3") (str "WAV") _ _).
  - right; left; reflexivity.
  - vm_compute. intros H. repeat (destruct H as [H | H]; [discriminate|]).
    exact H.
Defined.

(** X10.  The transcript path is always a file directly inside the
    directory that [runWhisperCLI] passes to Whisper as output directory:
    between that directory and [.txt] stands a beginning of the base name
    of the audio path, which contains no separator. *)
Theorem transcript_path_stays_in_output_dir :
  forall audioPath model,
  exists name rest,
    getTranscriptPathInTmp audioPath
    = last (whisperArgs audioPath model) [] ++ str "/" ++ name ++ str ".txt" /\
    basename audioPath = name ++ rest /\
    lacks "/" name.
Proof.
  intros audioPath model. unfold getTranscriptPathInTmp.
  rewrite replace_ext.
  destruct (cutAtExt_prefix (basename audioPath)) as (rest & H).
  exists (cutAtExt (basename audioPath)), rest. split; [|split].
  - reflexivity.
  - exact H.
  - intros Hin. apply (@basename_no_sep audioPath).
    rewrite H. apply in_or_app. left; exact Hin.
Qed.

(** X11.  An audio path whose base name does not end in a dot and a
    recognized extension keeps its whole base name in the transcript
    path. *)
Theorem transcript_path_without_extension :
  forall audioPath,
    (forall e, In e recognized ->
               endsWithNoCase (basename audioPath) (dotted e) = false) ->
    getTranscriptPathInTmp audioPath
    = str "/tmp/" ++ basename audioPath ++ str ".txt".
Proof.
  intros audioPath H. unfold getTranscriptPathInTmp.
  rewrite replace_ext, cutAtExt_strip. unfold stripAudioExtension.
  rewrite find_all_false by exact H. reflexivity.
Qed.

Lemma transcript_path_without_extension_witness :
  getTranscriptPathInTmp (str "/Users/me/Vault/Video/talk.mp4")
  = str "/tmp/talk.mp4.txt".
Proof.
  apply transcript_path_without_extension.
  unfold recognized. cbn [In]. intros e H.
  repeat (destruct H as [<- | H]); [ .. | contradiction]; reflexivity.
Defined.

(* ================================================================== *)
(** ** Where the block goes *)

Section InsertionPoint.

Lemma first_split_unique (x : CodeUnit) a : forall a' b b',
  a ++ x :: b = a' ++ x :: b' -> ~ In x a -> ~ In x a' ->
  a = a' /\ b = b'.
Proof.
  induction a as [|c a IH]; intros [|c' a'] b b' E Ha Ha'; cbn [List.app] in E.
  - injection E as E. auto.
  - injection E as E1 E2. exfalso. apply Ha'. left. congruence.
  - injection E as E1 E2. exfalso. apply Ha. left. congruence.
  - injection E as E1 E2. subst c'.
    destruct (IH a' b b' E2) as [-> ->].
    + intros H. apply Ha. right; exact H.
    + intros H. apply Ha'. right; exact H.
    + auto.
Qed.

Lemma insert_appends content startPos endPos transcript :
  ~ In LF (skipn endPos content) ->
  getValue (insertTranscriptBelowRange (mkEditor content) startPos endPos
                                       transcript)
  = content ++ insertionText transcript.
Proof.
  intros Hno.
  unfold insertTranscriptBelowRange, replaceRange, posToOffset.
  cbn [getValue line ch]. rewrite lineIndexOf_counts.
  replace (countLF (firstn endPos content) + 1)
    with (S (countLF (firstn endPos content))) by lia.
  pose proof (lineStart_next content endPos) as H.
  destruct (lineStart content (S (countLF (firstn endPos content)))) as [o|].
  - exfalso. destruct H as (tail & H1 & H2). apply Hno.
    assert (E : content
                = firstn endPos content ++ (tail ++ [LF]) ++ skipn o content).
    { rewrite <- (firstn_skipn o content) at 1. rewrite H1.
      rewrite <- !app_assoc. reflexivity. }
    rewrite <- (firstn_skipn endPos content) in E at 1.
    apply app_inv_head in E. rewrite E.
    apply in_or_app. left. apply in_or_app. right. left; reflexivity.
  - rewrite firstn_all, skipn_all, app_nil_r. reflexivity.
Qed.

Lemma insert_before_next_line content startPos endPos transcript tail post :
  skipn endPos content = tail ++ LF :: post -> ~ In LF tail ->
  getValue (insertTranscriptBelowRange (mkEditor content) startPos endPos
                                       transcript)
  = firstn endPos content ++ tail ++ [LF]
    ++ insertionText transcript ++ post.
Proof.
  intros Hs Ht.
  unfold insertTranscriptBelowRange, replaceRange, posToOffset.
  cbn [getValue line ch]. rewrite lineIndexOf_counts.
  replace (countLF (firstn endPos content) + 1)
    with (S (countLF (firstn endPos content))) by lia.
  pose proof (lineStart_next content endPos) as H.
  destruct (lineStart content (S (countLF (firstn endPos content)))) as [o|].
  - destruct H as (tail' & H1 & H2).
    assert (E : content
                = firstn endPos content ++ tail' ++ LF :: skipn o content).
    { rewrite <- (firstn_skipn o content) at 1. rewrite H1.
      rewrite <- !app_assoc. reflexivity. }
    rewrite <- (firstn_skipn endPos content) in E at 1.
    apply app_inv_head in E. rewrite Hs in E.
    destruct (@first_split_unique LF tail tail' post (skipn o content) E Ht H2)
      as [E1 E2].
    rewrite Nat.add_0_r, H1, <- E1, <- E2. rewrite <- !app_assoc. reflexivity.
  - exfalso. apply H. rewrite Hs. apply in_or_app. right. left; reflexivity.
Qed.

End InsertionPoint.

(** X12.  When no line feed follows the end offset (the reference is on
    the last line, or the offset is at or past the end of the document),
    the block is added at the end of the document. *)
Theorem insertion_on_last_line_appends :
  forall content startPos endPos transcript,
    ~ In LF (skipn endPos content) ->
    getValue (insertTranscriptBelowRange (mkEditor content) startPos endPos
                                         transcript)
    = content ++ [LF] ++ str ">[!note] Transcription" ++ [LF]
      ++ transcript ++ [LF].
Proof. intros. apply insert_appends; assumption. Qed.

Lemma insertion_on_last_line_appends_witness :
  getValue (insertTranscriptBelowRange
              (mkEditor (str "Intro" ++ [LF] ++ str "See [[a.mp3]] now"))
              10 19 (str "Hi"))
  = (str "Intro" ++ [LF] ++ str "See [[a.mp3]] now")
    ++ [LF] ++ str ">[!note] Transcription" ++ [LF] ++ str "Hi" ++ [LF].
Proof.
  apply insertion_on_last_line_appends.
  vm_compute. intros H. repeat (destruct H as [H | H]; [discriminate|]).
  exact H.
Defined.

(** X13.  When the text after the end offset is [tail], a line feed and
    [post], with no line feed in [tail], the block is put between that
    line feed and [post]: the rest of the reference's line stays with it,
    the block starts the next line and what was the next line follows the
    block. *)
Theorem insertion_before_next_line :
  forall content startPos endPos transcript tail post,
    skipn endPos content = tail ++ LF :: post -> ~ In LF tail ->
    getValue (insertTranscriptBelowRange (mkEditor content) startPos endPos
                                         transcript)
    = firstn endPos content ++ tail ++ [LF]
      ++ ([LF] ++ str ">[!note] Transcription" ++ [LF] ++ transcript ++ [LF])
      ++ post.
Proof. intros. apply insert_before_next_line; assumption. Qed.

Lemma insertion_before_next_line_witness :
  getValue (insertTranscriptBelowRange
              (mkEditor (str "See [[a.mp3]] now" ++ [LF] ++ str "Next"))
              4 13 (str "Hi"))
  = str "See [[a.mp3]] now" ++ [LF]
    ++ ([LF] ++ str ">[!note] Transcription" ++ [LF] ++ str "Hi" ++ [LF])
    ++ str "Next".
Proof.
  refine (@insertion_before_next_line
            (str "See [[a.mp3]] now" ++ [LF] ++ str "Next") 4 13 (str "Hi")
            (str " now") (str "Next") eq_refl _).
  vm_compute. intros H. repeat (destruct H as [H | H]; [discriminate|]).
  exact H.
Defined.

(* ================================================================== *)
(** ** Further properties of the dialog and of the command *)

Section CommandMore.

Lemma nth_error_choices items n t v :
  nth_error (List.map choiceOf items ++ [(str "Cancel", None)]) n
  = Some (t, v) ->
  match v with
  | Some item => nth_error items n = Some item
  | None => n = length items
  end.
Proof.
  intros H. destruct (Nat.lt_ge_cases n (length items)) as [L|L].
  - rewrite nth_error_app1 in H by (rewrite length_map; exact L).
    rewrite nth_error_map in H.
    destruct (nth_error items n) as [it|]; [|discriminate].
    cbn [option_map choiceOf] in H. injection H as _ <-. reflexivity.
  - rewrite nth_error_app2 in H by (rewrite length_map; exact L).
    rewrite length_map in H.
    destruct (n - length items) as [|k] eqn:E.
    + cbn [nth_error] in H. injection H as _ <-. lia.
    + cbn [nth_error] in H. destruct k; discriminate.
Qed.

Lemma choose_inv items u :
  match chooseAudioLinkModal items u with
  | Some (Some item) => In item items
  | Some None => u = ClickButton (length items)
  | None => True
  end.
Proof.
  unfold chooseAudioLinkModal. destruct u as [n|]; [|exact I].
  rewrite buttons_onOpen.
  destruct (nth_error (List.map choiceOf items ++ [(str "Cancel", None)]) n)
    as [[t v]|] eqn:E; cbn [option_map snd]; [|exact I].
  apply nth_error_choices in E. destruct v as [item|].
  - eapply nth_error_In; exact E.
  - rewrite E. reflexivity.
Qed.

(** Steps 4 to 7: the document is touched only by the insertion that
    follows a successful read, and the last notice tells the outcome. *)
Lemma transcribeSelected_outcome app editor selected sofar :
  let run := transcribeSelected app editor selected sofar in
  status run = Finished /\
  exists prefix msg,
    trace run = prefix ++ [Notice msg] /\ In msg outcomeNotices /\
    (editorAfter run = editor \/
     msg = str "Transcription inserted!" /\
     exists transcript,
       editorAfter run
       = insertTranscriptBelowRange editor (Resolver.startPos selected)
           (Resolver.endPos selected) transcript).
Proof.
  unfold transcribeSelected, outcomeNotices.
  destruct (adapterBasePath app) as [root|].
  - destruct (runWhisperCLI _ _ _ _) as [fs'|].
    + destruct (readTranscriptFile _ _) as [t|]; cbn [status trace editorAfter];
        (split; [reflexivity|]); eexists _, _;
        (split; [reflexivity|]); (split; [cbn [In]; tauto|]).
      * right. split; [reflexivity|]. exists t. reflexivity.
      * left; reflexivity.
    + cbn [status trace editorAfter]. split; [reflexivity|]. eexists _, _.
      split; [reflexivity|]. split; [cbn [In]; tauto | left; reflexivity].
  - cbn [status trace editorAfter]. split; [reflexivity|]. eexists _, _.
    split; [reflexivity|]. split; [cbn [In]; tauto | left; reflexivity].
Qed.

End CommandMore.

Lemma dialog_click_resolves_to_item_aux (items : list AudioLinkFile) n :
  chooseAudioLinkModal items (ClickButton n)
  = if n <? length items then option_map Some (nth_error items n)
    else if n =? length items then Some None
    else None.
Proof.
  unfold chooseAudioLinkModal. rewrite buttons_onOpen.
  destruct (Nat.ltb_spec n (length items)) as [L|L].
  - rewrite nth_error_app1 by (rewrite length_map; exact L).
    rewrite nth_error_map. destruct (nth_error items n); reflexivity.
  - rewrite nth_error_app2 by (rewrite length_map; exact L).
    rewrite length_map. destruct (Nat.eqb_spec n (length items)) as [->|N].
    + rewrite Nat.sub_diag. reflexivity.
    + destruct (n - length items) as [|[|k]] eqn:E; [lia | reflexivity..].
Qed.

(** X14.  A click in the dialog resolves to what the button stands for:
    button [n] of the references resolves to reference [n], the button
    after the last reference is Cancel and resolves to [null], and there
    is no further button. *)
Theorem dialog_click_resolves_to_item :
  forall (items : list AudioLinkFile) (n : nat),
    chooseAudioLinkModal items (ClickButton n)
    = if n <? length items then option_map Some (nth_error items n)
      else if n =? length items then Some None
      else None.
Proof. intros items n. apply dialog_click_resolves_to_item_aux. Qed.

(** X15.  The command changes the document only by the insertion that
    follows a successful read: either the document is left as it was, or
    the run finished, its last notice is that the transcription was
    inserted, and the document is the insertion of some transcript below
    one of the resolved references of the note. *)
Theorem document_changes_only_on_success :
  forall (app : App) (editor : Editor) (currentFilePath : JSString),
    let run := transcribeAudioInCurrentNote app editor currentFilePath in
    editorAfter run = editor \/
    (status run = Finished /\
     exists prefix linkMatches selected transcript,
       trace run = prefix ++ [Notice (str "Transcription inserted!")] /\
       findAudioLinkMatches (getValue editor) = Some linkMatches /\
       In selected (resolveMatchesToFiles app linkMatches currentFilePath) /\
       editorAfter run
       = insertTranscriptBelowRange editor (Resolver.startPos selected)
           (Resolver.endPos selected) transcript).
Proof.
  intros app editor p. cbv zeta. unfold transcribeAudioInCurrentNote.
  destruct (findAudioLinkMatches (getValue editor)) as [ms|] eqn:Hms;
    [|left; reflexivity].
  assert (Sel : forall sel sofar,
            In sel (resolveMatchesToFiles app ms p) ->
            editorAfter (transcribeSelected app editor sel sofar) = editor \/
            (status (transcribeSelected app editor sel sofar) = Finished /\
             exists prefix linkMatches selected transcript,
               trace (transcribeSelected app editor sel sofar)
               = prefix ++ [Notice (str "Transcription inserted!")] /\
               Some ms = Some linkMatches /\
               In selected (resolveMatchesToFiles app linkMatches p) /\
               editorAfter (transcribeSelected app editor sel sofar)
               = insertTranscriptBelowRange editor
                   (Resolver.startPos selected) (Resolver.endPos selected)
                   transcript)).
  { intros sel sofar Hin.
    destruct (transcribeSelected_outcome app editor sel sofar)
      as (Hst & prefix & msg & Htr & _ & [Hed | (-> & t & Hed)]).
    - left; exact Hed.
    - right. split; [exact Hst|]. exists prefix, ms, sel, t. auto. }
  destruct (resolveMatchesToFiles app ms p) as [|a [|b l]] eqn:E.
  - left; reflexivity.
  - apply Sel. left; reflexivity.
  - pose proof (choose_inv (a :: b :: l) (user app)) as Hc.
    destruct (chooseAudioLinkModal (a :: b :: l) (user app)) as [[c|]|].
    + apply Sel. exact Hc.
    + left; reflexivity.
    + left; reflexivity.
Qed.

(** X16.  A run never ends without telling why, except at the dialog:
    either it finished and its last notice is one of the five outcome
    notices, or it finished on a click on Cancel with the dialog as only
    event, or it stays suspended at the dialog because no button was
    clicked. *)
Theorem run_ends_with_outcome_or_at_dialog :
  forall (app : App) (editor : Editor) (currentFilePath : JSString),
    let run := transcribeAudioInCurrentNote app editor currentFilePath in
    (status run = Finished /\
     exists prefix msg,
       trace run = prefix ++ [Notice msg] /\ In msg outcomeNotices) \/
    (exists items,
       trace run = [ModalOpened (onOpen items)] /\
       ((status run = Finished /\ user app = ClickButton (length items)) \/
        (status run = Suspended /\
         chooseAudioLinkModal items (user app) = None))).
Proof.
  intros app editor p. cbv zeta. unfold transcribeAudioInCurrentNote.
  destruct (findAudioLinkMatches_returns (getValue editor)) as (ms & ->).
  assert (Sel : forall sel sofar,
            status (transcribeSelected app editor sel sofar) = Finished /\
            exists prefix msg,
              trace (transcribeSelected app editor sel sofar)
              = prefix ++ [Notice msg] /\ In msg outcomeNotices).
  { intros sel sofar.
    destruct (transcribeSelected_outcome app editor sel sofar)
      as (Hst & prefix & msg & Htr & Hin & _).
    split; [exact Hst|]. exists prefix, msg. auto. }
  destruct (resolveMatchesToFiles app ms p) as [|a [|b l]] eqn:E.
  - left. split; [reflexivity|]. eexists [], _. split; [reflexivity|].
    left; reflexivity.
  - left. apply Sel.
  - pose proof (choose_inv (a :: b :: l) (user app)) as Hc.
    destruct (chooseAudioLinkModal (a :: b :: l) (user app)) as [[c|]|] eqn:Ch.
    + left. apply Sel.
    + right. exists (a :: b :: l). split; [reflexivity|]. left.
      split; [reflexivity | exact Hc].
    + right. exists (a :: b :: l). split; [reflexivity|]. right.
      split; [reflexivity | exact Ch].
Qed.

Lemma editor_eta (ed : Editor) : ed = mkEditor (getValue ed).
Proof. destruct ed; reflexivity. Qed.

Lemma skipn_past_prefix (a b c : JSString) :
  skipn (length a + length b) (a ++ b ++ c) = c.
Proof.
  rewrite app_assoc, skipn_app, skipn_all2 by (rewrite length_app; lia).
  rewrite length_app, Nat.sub_diag. reflexivity.
Qed.

(** X17.  The whole command on a note with one reference, on its last
    line: when the reference (to [stem.e'], [e'] a recognized extension
    in any letter case, in either syntax) resolves to a file, the vault
    is on a local file system, Whisper exits normally and the transcript
    file is there, the run is the two notices "Transcribing: ..." and
    "Transcription inserted!", no dialog, and the document becomes the
    note followed by a line feed, the callout header and the trimmed
    transcript, each on a line of its own. *)
Theorem command_on_single_reference :
  forall (app : App) (currentFilePath : JSString)
         (e' pre label stem post construct : JSString)
         (file : TFile) (vaultRoot : JSString) (fs' : FileSystem)
         (data : JSString),
    In (List.map toLowerAscii e') LinkFinder.audioExtensions ->
    lacks "[" pre -> lacks "[" post -> ~ In LF post ->
    let reference := stem ++ str "." ++ e' in
    (construct = mdLink label reference /\ lacks "]" label /\ lacks ")" stem) \/
    (construct = wikiLink reference /\ lacks "]" stem) ->
    let note := pre ++ construct ++ post in
    getFirstLinkpathDest app reference currentFilePath = Some file ->
    adapterBasePath app = Some vaultRoot ->
    let audio := pathJoin app vaultRoot (path file) in
    execFile app (str "/opt/homebrew/bin/whisper")
             (whisperArgs audio (str "medium")) (fileSystem app) = Some fs' ->
    fs' (getTranscriptPathInTmp audio) = Some data ->
    transcribeAudioInCurrentNote app (mkEditor note) currentFilePath
    = mkRun [Notice (str "Transcribing: " ++ path file ++ str " ...");
             Notice (str "Transcription inserted!")]
            (mkEditor (note ++ [LF] ++ str ">[!note] Transcription" ++ [LF]
                       ++ trim data ++ [LF]))
            Finished.
Proof.
  intros app p e' pre label stem post construct file root fs' data
         He Hpre Hpost Hlf reference Hc note Hres Had audio Hex Hfs.
  assert (Hscan : findAudioLinkMatches note
                  = Some [mkLinkMatch reference (length pre)
                                      (length pre + length construct)]).
  { destruct (@scan_one_reference _ e' He eq_refl pre label stem post Hpre Hpost)
      as [Hmd Hwiki].
    destruct Hc as [(-> & Hl & Hs) | (-> & Hs)]; [apply Hmd | apply Hwiki];
      assumption. }
  unfold transcribeAudioInCurrentNote. cbn [getValue]. rewrite Hscan.
  unfold resolveMatchesToFiles. cbn [resolveLoop linkText].
  rewrite Hres. cbn [List.app LinkFinder.startPos LinkFinder.endPos].
  unfold transcribeSelected. cbn [tfile Resolver.startPos Resolver.endPos].
  rewrite Had. fold audio. unfold runWhisperCLI.
  replace (match str "/opt/homebrew/bin/whisper" with
           | [] => str "whisper"
           | _ :: _ => str "/opt/homebrew/bin/whisper"
           end) with (str "/opt/homebrew/bin/whisper") by reflexivity.
  rewrite Hex. unfold readTranscriptFile. rewrite Hfs.
  cbn [List.app]. f_equal.
  rewrite (editor_eta (insertTranscriptBelowRange _ _ _ _)).
  rewrite insert_appends; [reflexivity|].
  unfold note. rewrite skipn_past_prefix. exact Hlf.
Qed.

Lemma command_on_single_reference_witness :
  transcribeAudioInCurrentNote transcribingHost
    (mkEditor (str "See [[meeting.m4a]] for notes.")) (str "Inbox/today.md")
  = mkRun [Notice (str "Transcribing: meeting.m4a ...");
           Notice (str "Transcription inserted!")]
          (mkEditor (str "See [[meeting.m4a]] for notes." ++ [LF]
                     ++ str ">[!note] Transcription" ++ [LF]
                     ++ str "Hello world" ++ [LF]))
          Finished.
Proof.
  assert (P : forall c s,
             (if in_dec N.eq_dec c s then false else true) = true ->
             ~ In c s).
  { intros c s H Hin. destruct (in_dec N.eq_dec c s); [discriminate | tauto]. }
  refine (@command_on_single_reference transcribingHost (str "Inbox/today.md")
            (str "m4a") (str "See ") [] (str "meeting") (str " for notes.")
            (wikiLink (str "meeting.m4a")) (mkTFile (str "meeting.m4a"))
            (str "/vault") _ (str "  Hello world " ++ [LF])
            _ _ _ _ _ eq_refl eq_refl eq_refl eq_refl).
  - right; right; left; reflexivity.
  - apply P; reflexivity.
  - apply P; reflexivity.
  - apply P; reflexivity.
  - right. split; [reflexivity|]. apply P; reflexivity.
Defined.

(* ================================================================== *)
(** ** The command of the single-file version *)

Section SingleFile.

Lemma resolve_written_paths app cur ms :
  (forall t, getFirstLinkpathDest app t cur = Some (mkTFile t)) ->
  resolveMatchesToFiles app ms cur = List.map fileOfMatch ms.
Proof.
  intros H. unfold resolveMatchesToFiles.
  induction ms as [|m ms IH]; [reflexivity|].
  cbn [resolveLoop List.map]. rewrite H, resolveLoop_acc, IH. reflexivity.
Qed.

Lemma sameReference_lists ms : forall ls,
  List.map asTriple ms = List.map asTriple' ls ->
  Forall2 sameReference (List.map fileOfMatch ms) ls.
Proof.
  induction ms as [|m ms IH]; intros [|l ls] H; cbn [List.map] in *;
    try discriminate; constructor.
  - injection H as H1 H2 H3 _. unfold sameReference, fileOfMatch. cbn. auto.
  - apply IH. injection H as _ _ _ H. exact H.
Qed.

Lemma main_buttons_onOpen links :
  MainPlugin.buttons (MainPlugin.onOpen links)
  = List.map (fun l => (Main.filePath l, Some l)) links
    ++ [(str "Cancel", None)].
Proof.
  unfold MainPlugin.onOpen. cbn [MainPlugin.buttons].
  induction links as [|l links IH]; [reflexivity|].
  cbn [flat_map List.map List.app MainPlugin.buttons]. rewrite IH. reflexivity.
Qed.

Lemma choose_agree rs ls u :
  Forall2 sameReference rs ls ->
  match chooseAudioLinkModal rs u, MainPlugin.chooseAudioLinkModal ls u with
  | Some (Some r), Some (Some l) => sameReference r l
  | Some None, Some None => True
  | None, None => True
  | _, _ => False
  end.
Proof.
  intros F. pose proof (Forall2_length F) as L.
  destruct u as [n|]; [|exact I].
  rewrite dialog_click_resolves_to_item_aux.
  unfold MainPlugin.chooseAudioLinkModal. rewrite main_buttons_onOpen.
  destruct (Nat.ltb_spec n (length rs)) as [Hn|Hn].
  - rewrite nth_error_app1 by (rewrite length_map; lia).
    rewrite nth_error_map.
    destruct (nth_error rs n) as [r|] eqn:Er;
      [|apply nth_error_None in Er; lia].
    destruct (nth_error ls n) as [l|] eqn:El;
      [|apply nth_error_None in El; lia].
    cbn [option_map snd].
    clear L Hn. revert n Er El.
    induction F as [|r0 l0 rs ls R F IH]; intros [|n] Er El;
      cbn [nth_error] in *; try discriminate.
    + injection Er as <-. injection El as <-. exact R.
    + exact (IH n Er El).
  - rewrite nth_error_app2 by (rewrite length_map; lia).
    rewrite length_map, <- L.
    destruct (Nat.eqb_spec n (length rs)) as [->|N].
    + rewrite Nat.sub_diag. exact I.
    + destruct (n - length rs) as [|[|k]] eqn:E; [lia | exact I | exact I].
Qed.

Lemma selected_agree app editor r l sofar sofar' :
  sameReference r l ->
  editorAfter (transcribeSelected app editor r sofar)
  = MainPlugin.editorAfter (MainPlugin.transcribeSelected app editor l sofar')
  /\ status (transcribeSelected app editor r sofar)
     = MainPlugin.status (MainPlugin.transcribeSelected app editor l sofar').
Proof.
  intros (Hp & Hs & He).
  unfold transcribeSelected, MainPlugin.transcribeSelected.
  destruct (adapterBasePath app) as [root|]; [|split; reflexivity].
  rewrite Hp.
  change (runWhisperCLI app (str "/opt/homebrew/bin/whisper")
            (pathJoin app root (Main.filePath l)) (str "medium"))
    with (MainPlugin.runWhisperCLI app (pathJoin app root (Main.filePath l))
            (str "medium")).
  destruct (MainPlugin.runWhisperCLI app _ _) as [fs'|]; [|split; reflexivity].
  unfold readTranscriptFile.
  change (getTranscriptPathInTmp (pathJoin app root (Main.filePath l)))
    with (MainPlugin.getTranscriptPath (pathJoin app root (Main.filePath l))).
  destruct (fs' _) as [data|]; [|split; reflexivity].
  cbn [editorAfter status MainPlugin.editorAfter MainPlugin.status].
  rewrite He. split; reflexivity.
Qed.

End SingleFile.

(** X18.  The command of src/main.ts and the command of the modular
    version do the same to the document: when every reference resolves to
    the file whose path is the reference as written, and the two scanners
    return the same matches on the note, both runs end in the same
    document and the same status, whatever the user, Whisper and the file
    system do. *)
Theorem single_file_command_agrees :
  forall (app : App) (editor : Editor) (currentFilePath : JSString),
    (forall t, getFirstLinkpathDest app t currentFilePath = Some (mkTFile t)) ->
    option_map (List.map asTriple) (findAudioLinkMatches (getValue editor))
    = option_map (List.map asTriple') (Main.findAudioLinks (getValue editor)) ->
    editorAfter (transcribeAudioInCurrentNote app editor currentFilePath)
    = MainPlugin.editorAfter (MainPlugin.transcribeAudioInCurrentNote app editor)
    /\ status (transcribeAudioInCurrentNote app editor currentFilePath)
       = MainPlugin.status (MainPlugin.transcribeAudioInCurrentNote app editor).
Proof.
  intros app editor p Hres Hscan.
  unfold transcribeAudioInCurrentNote, MainPlugin.transcribeAudioInCurrentNote.
  destruct (findAudioLinkMatches (getValue editor)) as [ms|];
    destruct (Main.findAudioLinks (getValue editor)) as [ls|];
    cbn [option_map] in Hscan; try discriminate; [|split; reflexivity].
  injection Hscan as Hscan.
  rewrite (resolve_written_paths app p ms Hres).
  pose proof (sameReference_lists ms ls Hscan) as F.
  destruct F as [|r l rs' ls' R F]; [split; reflexivity|].
  destruct F as [|r2 l2 rs'' ls'' R2 F].
  - apply selected_agree; exact R.
  - pose proof (@choose_agree (r :: r2 :: rs'') (l :: l2 :: ls'') (user app)
                  (Forall2_cons _ _ R (Forall2_cons _ _ R2 F))) as C.
    destruct (chooseAudioLinkModal (r :: r2 :: rs'') (user app)) as [[c|]|];
      destruct (MainPlugin.chooseAudioLinkModal (l :: l2 :: ls'') (user app))
        as [[c'|]|]; try contradiction; try (split; reflexivity).
    apply selected_agree; exact C.
Qed.

Lemma single_file_command_agrees_witness :
  editorAfter (transcribeAudioInCurrentNote (plainHost (ClickButton 1))
                 (mkEditor (str "[intro](a.mp3) and [talk](b/c.WAV)"))
                 (str "Inbox/today.md"))
  = MainPlugin.editorAfter
      (MainPlugin.transcribeAudioInCurrentNote (plainHost (ClickButton 1))
         (mkEditor (str "[intro](a.mp3) and [talk](b/c.WAV)")))
  /\ status (transcribeAudioInCurrentNote (plainHost (ClickButton 1))
               (mkEditor (str "[intro](a.mp3) and [talk](b/c.WAV)"))
               (str "Inbox/today.md"))
     = MainPlugin.status
         (MainPlugin.transcribeAudioInCurrentNote (plainHost (ClickButton 1))
            (mkEditor (str "[intro](a.mp3) and [talk](b/c.WAV)"))).
Proof.
  apply single_file_command_agrees.
  - intros t. reflexivity.
  - vm_compute. reflexivity.
Defined.

(** X19.  The command of src/main.ts changes the document only by the
    insertion that follows a successful read: either the document is left
    as it was, or the run finished, its last notice is that the
    transcription was inserted, and the document is the insertion of some
    transcript below one of the links found in the note. *)
Theorem single_file_document_changes_only_on_success :
  forall (app : App) (editor : Editor),
    let run := MainPlugin.transcribeAudioInCurrentNote app editor in
    MainPlugin.editorAfter run = editor \/
    (MainPlugin.status run = Finished /\
     exists prefix links selected transcript,
       MainPlugin.trace run
       = prefix ++ [MainPlugin.Notice (str "Transcription inserted.")] /\
       Main.findAudioLinks (getValue editor) = Some links /\
       In selected links /\
       MainPlugin.editorAfter run
       = MainPlugin.insertTranscriptBelowLink editor selected transcript).
Proof.
  intros app editor. cbv zeta. unfold MainPlugin.transcribeAudioInCurrentNote.
  destruct (Main.findAudioLinks (getValue editor)) as [ls|];
    [|left; reflexivity].
  assert (Sel : forall sel sofar,
            In sel ls ->
            MainPlugin.editorAfter
              (MainPlugin.transcribeSelected app editor sel sofar) = editor \/
            (MainPlugin.status
               (MainPlugin.transcribeSelected app editor sel sofar) = Finished /\
             exists prefix links selected transcript,
               MainPlugin.trace
                 (MainPlugin.transcribeSelected app editor sel sofar)
               = prefix ++ [MainPlugin.Notice (str "Transcription inserted.")] /\
               Some ls = Some links /\
               In selected links /\
               MainPlugin.editorAfter
                 (MainPlugin.transcribeSelected app editor sel sofar)
               = MainPlugin.insertTranscriptBelowLink editor selected
                   transcript)).
  { intros sel sofar Hin. unfold MainPlugin.transcribeSelected.
    destruct (adapterBasePath app) as [root|]; [|left; reflexivity].
    destruct (MainPlugin.runWhisperCLI app _ _) as [fs'|]; [|left; reflexivity].
    destruct (fs' _) as [data|]; [|left; reflexivity].
    right. split; [reflexivity|].
    eexists _, ls, sel, (trim data). repeat split. exact Hin. }
  destruct ls as [|a [|b l]].
  - left; reflexivity.
  - apply Sel. left; reflexivity.
  - destruct (MainPlugin.chooseAudioLinkModal (a :: b :: l) (user app))
      as [[c|]|] eqn:Ch; [|left; reflexivity|left; reflexivity].
    apply Sel.
    unfold MainPlugin.chooseAudioLinkModal in Ch.
    destruct (user app) as [n|]; [|discriminate].
    rewrite main_buttons_onOpen in Ch.
    destruct (nth_error
                (List.map (fun l0 => (Main.filePath l0, Some l0)) (a :: b :: l)
                 ++ [(str "Cancel", None)]) n) as [[t v]|] eqn:E;
      [|discriminate].
    cbn [option_map snd] in Ch. injection Ch as ->.
    apply nth_error_In in E. apply in_app_or in E. destruct E as [E|E].
    + apply in_map_iff in E. destruct E as (x & Hx & Hin).
      injection Hx as _ ->. exact Hin.
    + destruct E as [E|[]]. discriminate.
Qed.

(* ================================================================== *)
(** ** Scanning what follows a reference *)

Section ScanOn.

Variable ic : bool.

Lemma star_shift d cls s : forall e caps k k',
  (forall y, k' (shiftState d y) = option_map (shiftState d) (k y)) ->
  star ic cls s (d + e) caps k'
  = option_map (shiftState d) (star ic cls s e caps k).
Proof.
  induction s as [|c s IH]; intros e caps k k' Hk; cbn [star].
  - exact (Hk (mkState [] e caps)).
  - destruct (classMatches ic cls c).
    + replace (S (d + e)) with (d + S e) by lia. rewrite (IH _ _ k k' Hk).
      destruct (star ic cls s (S e) caps k); [reflexivity|].
      exact (Hk (mkState (c :: s) e caps)).
    + exact (Hk (mkState (c :: s) e caps)).
Qed.

(** The matcher does not depend on where in the text it is, except for
    the indices it reports. *)
Lemma matcher_shift d r : forall x k k',
  (forall y, k' (shiftState d y) = option_map (shiftState d) (k y)) ->
  matcher ic r (shiftState d x) k'
  = option_map (shiftState d) (matcher ic r x k).
Proof.
  induction r as [|cls|a IHa b IHb|a IHa b IHb|cls|n a IHa|];
    intros x k k' Hk; cbn [matcher].
  - apply Hk.
  - destruct x as [s e caps]. cbn [shiftState rest endIndex captures].
    destruct s as [|c s]; [reflexivity|].
    destruct (classMatches ic cls c); [|reflexivity].
    replace (S (d + e)) with (d + S e) by lia.
    exact (Hk (mkState s (S e) caps)).
  - apply IHa. intros y. apply IHb. exact Hk.
  - rewrite (IHa x k k' Hk), (IHb x k k' Hk).
    destruct (matcher ic a x k); reflexivity.
  - destruct x as [s e caps]. cbn [shiftState rest endIndex captures].
    apply star_shift. exact Hk.
  - apply IHa. intros y. cbn [shiftState rest endIndex captures].
    replace (d + endIndex y - (d + endIndex x)) with (endIndex y - endIndex x)
      by lia.
    exact (Hk (mkState (rest y) (endIndex y)
                 ((n, firstn (endIndex y - endIndex x) (rest x)) :: captures y))).
  - destruct x as [s e caps]. cbn [shiftState rest endIndex captures].
    destruct s; [|reflexivity]. exact (Hk (mkState [] e caps)).
Qed.

Lemma search_shift d r s : forall i,
  search ic r s (d + i) = option_map (shiftFound d) (search ic r s i).
Proof.
  induction s as [|c s IH]; intros i; cbn [search].
  - change (mkState [] (d + i) []) with (shiftState d (mkState [] i [])).
    rewrite (@matcher_shift d r _ (fun y => Some y) (fun y => Some y))
      by (intros; reflexivity).
    destruct (matcher ic r (mkState [] i []) (fun y => Some y)); reflexivity.
  - change (mkState (c :: s) (d + i) [])
      with (shiftState d (mkState (c :: s) i [])).
    rewrite (@matcher_shift d r _ (fun y => Some y) (fun y => Some y))
      by (intros; reflexivity).
    destruct (matcher ic r (mkState (c :: s) i []) (fun y => Some y));
      [reflexivity|].
    replace (S (d + i)) with (d + S i) by lia. apply IH.
Qed.

Lemma exec_shift r a rest j :
  exec ic r (a ++ rest) (length a + j)
  = option_map (shiftFound (length a)) (exec ic r rest j).
Proof.
  unfold exec. rewrite length_app.
  destruct (Nat.ltb_spec (length rest) j) as [L|L].
  - replace (length a + length rest <? length a + j) with true
      by (symmetry; apply Nat.ltb_lt; lia).
    reflexivity.
  - replace (length a + length rest <? length a + j) with false
      by (symmetry; apply Nat.ltb_ge; lia).
    rewrite skipn_app, skipn_all2 by lia.
    replace (length a + j - length a) with j by lia.
    apply search_shift.
Qed.

End ScanOn.

Section ScanLoopOn.

Variable re : Regex.

Lemma scanLoop_acc : forall fuel text lastIndex acc,
  scanLoop re fuel text lastIndex acc
  = option_map (List.app acc) (scanLoop re fuel text lastIndex []).
Proof.
  induction fuel as [|fuel IH]; intros text lastIndex acc; cbn [scanLoop];
    [reflexivity|].
  destruct (exec true re text lastIndex) as [[idx y]|].
  - destruct (or_else (capture 2 (captures y)) (capture 3 (captures y)))
      as [[|c t]|]; try apply IH.
    rewrite IH. rewrite (IH _ _ ([] ++ _)).
    destruct (scanLoop re fuel text (endIndex y) []); cbn [option_map];
      [|reflexivity].
    rewrite <- app_assoc. reflexivity.
  - cbn [option_map]. rewrite app_nil_r. reflexivity.
Qed.

Lemma scanLoop_shift a rest : forall fuel j,
  scanLoop re fuel (a ++ rest) (length a + j) []
  = option_map (List.map (shiftMatch (length a))) (scanLoop re fuel rest j []).
Proof.
  induction fuel as [|fuel IH]; intros j; cbn [scanLoop]; [reflexivity|].
  rewrite exec_shift.
  destruct (exec true re rest j) as [[idx y]|]; cbn [option_map];
    [|reflexivity].
  cbn [shiftFound fst snd shiftState captures endIndex].
  destruct (or_else (capture 2 (captures y)) (capture 3 (captures y)))
    as [[|c t]|]; try apply IH.
  rewrite scanLoop_acc, (scanLoop_acc fuel rest), IH.
  destruct (scanLoop re fuel rest (endIndex y) []); reflexivity.
Qed.

Lemma scanLoop_more_fuel : forall fuel text lastIndex acc res,
  scanLoop re fuel text lastIndex acc = Some res ->
  forall fuel', fuel <= fuel' ->
  scanLoop re fuel' text lastIndex acc = Some res.
Proof.
  induction fuel as [|fuel IH]; intros text lastIndex acc res H fuel' L;
    cbn [scanLoop] in H; [discriminate|].
  destruct fuel' as [|fuel']; [lia|]. cbn [scanLoop].
  destruct (exec true re text lastIndex) as [[idx y]|]; [|exact H].
  destruct (or_else (capture 2 (captures y)) (capture 3 (captures y)))
    as [[|c t]|]; apply (IH _ _ _ _ H); lia.
Qed.

Lemma scanLoop_shift_from a rest fuel n :
  n = length a ->
  scanLoop re fuel (a ++ rest) n []
  = option_map (List.map (shiftMatch n)) (scanLoop re fuel rest 0 []).
Proof.
  intros ->. rewrite <- (Nat.add_0_r (length a)) at 1. apply scanLoop_shift.
Qed.

Lemma scanLoop_step fuel text lastIndex acc idx y c t :
  exec true re text lastIndex = Some (idx, y) ->
  or_else (capture 2 (captures y)) (capture 3 (captures y)) = Some (c :: t) ->
  scanLoop re (S fuel) text lastIndex acc
  = scanLoop re fuel text (endIndex y)
      (acc ++ [mkLinkMatch (c :: t) idx (endIndex y)]).
Proof.
  intros E C. cbn [scanLoop]. rewrite E, C. reflexivity.
Qed.

End ScanLoopOn.

(** X20.  Plain text before a note does not change what is found in it:
    for text without opening bracket put in front, the scanner returns
    the matches of the note moved to the right by the length of that
    text. *)
Theorem scan_skips_plain_prefix :
  forall pre rest, lacks "[" pre ->
  exists ms,
    findAudioLinkMatches rest = Some ms /\
    findAudioLinkMatches (pre ++ rest)
    = Some (List.map (shiftMatch (length pre)) ms).
Proof.
  intros pre rest Hpre.
  destruct (findAudioLinkMatches_returns rest) as (ms & H).
  exists ms. split; [exact H|].
  unfold findAudioLinkMatches in *.
  apply scanLoop_more_fuel with (fuel := S (length rest));
    [|rewrite length_app; lia].
  cbn [scanLoop] in *.
  assert (E : exec true LinkFinder.linkRegex (pre ++ rest) 0
              = option_map (shiftFound (length pre))
                  (exec true LinkFinder.linkRegex rest 0)).
  { unfold exec. cbn [Nat.ltb Nat.leb skipn].
    rewrite search_skips_plain by (apply lacks_Forall; exact Hpre).
    cbn [Nat.add]. replace (length pre) with (length pre + 0) at 1 by lia.
    apply search_shift. }
  rewrite E.
  destruct (exec true LinkFinder.linkRegex rest 0) as [[idx y]|];
    cbn [option_map]; [|injection H as <-; reflexivity].
  cbn [shiftFound fst snd shiftState captures endIndex].
  destruct (or_else (capture 2 (captures y)) (capture 3 (captures y)))
    as [[|c t]|].
  - rewrite scanLoop_shift, H. reflexivity.
  - rewrite scanLoop_acc in H. rewrite scanLoop_acc, scanLoop_shift.
    destruct (scanLoop LinkFinder.linkRegex (length rest) rest (endIndex y) []);
      [|discriminate].
    cbn [option_map] in *. injection H as <-. reflexivity.
  - rewrite scanLoop_shift, H. reflexivity.
Qed.

Lemma scan_skips_plain_prefix_witness :
  exists ms,
    findAudioLinkMatches (str "[[a.mp3]] x") = Some ms /\
    findAudioLinkMatches (str "Intro: " ++ str "[[a.mp3]] x")
    = Some (List.map (shiftMatch 7) ms).
Proof.
  apply (@scan_skips_plain_prefix (str "Intro: ") (str "[[a.mp3]] x")).
  vm_compute. intros H. repeat (destruct H as [H | H]; [discriminate|]).
  exact H.
Defined.

(** X21.  After a reference the scan goes on with the rest of the note:
    for text without opening bracket, then one reference to [stem.e'] in
    either syntax, then any text, the scanner returns the match of that
    reference followed by the matches of the text after it, moved to the
    right by the length of what stands before that text. *)
Theorem scan_continues_after_reference :
  forall e' pre label stem rest construct,
    In (List.map toLowerAscii e') LinkFinder.audioExtensions ->
    lacks "[" pre ->
    let reference := stem ++ str "." ++ e' in
    (construct = mdLink label reference /\ lacks "]" label /\ lacks ")" stem) \/
    (construct = wikiLink reference /\ lacks "]" stem) ->
    exists ms,
      findAudioLinkMatches rest = Some ms /\
      findAudioLinkMatches (pre ++ construct ++ rest)
      = Some (mkLinkMatch reference (length pre)
                          (length pre + length construct)
              :: List.map (shiftMatch (length pre + length construct)) ms).
Proof.
  intros e' pre label stem rest construct He Hpre reference Hc.
  destruct (findAudioLinkMatches_returns rest) as (ms & H).
  exists ms. split; [exact H|].
  assert (Eref : reference = (stem ++ str ".") ++ e')
    by (unfold reference; rewrite <- app_assoc; reflexivity).
  assert (Hne : stem ++ str "." <> [])
    by (intros E; apply app_eq_nil in E; destruct E; discriminate).
  assert (Hdot : forall ch, In ch [")"; "]"]%char -> lacks ch (str ".")).
  { intros ch [<- | [<- | []]]; vm_compute; intros [E|[]]; discriminate. }
  assert (M : exists caps,
            matcher true LinkFinder.linkRegex
              (mkState (construct ++ rest) (length pre) []) (fun y => Some y)
            = Some (mkState rest (length pre + length construct) caps) /\
            or_else (capture 2 caps) (capture 3 caps) = Some reference /\
            construct <> []).
  { destruct Hc as [(-> & Hl & Hs) | (-> & Hs)].
    - exists [(2, reference); (1, label)]. split; [|split].
      + rewrite Eref.
        apply (@md_reference_match_any_case _ e' He eq_refl); auto.
        apply lacks_app; [exact Hs | apply Hdot; left; reflexivity].
      + rewrite Eref. destruct ((stem ++ str ".") ++ e') eqn:E;
          [apply app_eq_nil in E; tauto | reflexivity].
      + unfold mdLink. discriminate.
    - exists [(3, reference)]. split; [|split].
      + rewrite Eref.
        apply (@wiki_reference_match_any_case _ e' He eq_refl); auto.
        apply lacks_app; [exact Hs | apply Hdot; right; left; reflexivity].
      + rewrite Eref. destruct ((stem ++ str ".") ++ e') eqn:E;
          [apply app_eq_nil in E; tauto | reflexivity].
      + unfold wikiLink. discriminate. }
  destruct M as (caps & Hm & Hcap & Hcne).
  assert (Href : reference <> [])
    by (rewrite Eref; intros E; apply app_eq_nil in E; tauto).
  assert (E : exec true LinkFinder.linkRegex (pre ++ construct ++ rest) 0
              = Some (length pre,
                      mkState rest (length pre + length construct) caps)).
  { unfold exec. cbn [Nat.ltb Nat.leb skipn].
    rewrite search_skips_plain by (apply lacks_Forall; exact Hpre).
    cbn [Nat.add].
    destruct construct as [|c0 construct]; [congruence|].
    cbn [List.app search] in *. rewrite Hm. reflexivity. }
  clearbody reference. clear Eref Hc.
  destruct reference as [|r0 ref']; [congruence|].
  unfold findAudioLinkMatches in *.
  assert (Hlen : length (pre ++ construct ++ rest)
                 = S (length pre + length construct + length rest - 1)).
  { rewrite !length_app. destruct construct; [congruence|]. simpl. lia. }
  rewrite Hlen.
  rewrite (@scanLoop_step LinkFinder.linkRegex _ _ 0 [] _ _ r0 ref' E Hcap).
  cbn [endIndex List.app].
  rewrite scanLoop_acc, app_assoc.
  rewrite (@scanLoop_shift_from LinkFinder.linkRegex (pre ++ construct) rest
             _ (length pre + length construct)
             (eq_sym (length_app pre construct))).
  rewrite (@scanLoop_more_fuel _ (S (length rest)) rest 0 [] ms H)
    by (destruct construct; [congruence | cbn [length]; lia]).
  reflexivity.
Qed.

Lemma scan_continues_after_reference_witness :
  exists ms,
    findAudioLinkMatches (str " then [talk](rec/talk.WAV)") = Some ms /\
    findAudioLinkMatches
      (str "" ++ wikiLink (str "a.mp3") ++ str " then [talk](rec/talk.WAV)")
    = Some (mkLinkMatch (str "a.mp3") 0 9 :: List.map (shiftMatch 9) ms).
Proof.
  refine (@scan_continues_after_reference (str "mp3") [] [] (str "a")
            (str " then [talk](rec/talk.WAV)") (wikiLink (str "a.mp3")) _ _ _).
  - left; reflexivity.
  - intros [].
  - right. split; [reflexivity|].
    vm_compute. intros H. repeat (destruct H as [H | H]; [discriminate|]).
    exact H.
Defined.
